(** * pixi-anime: keyframe timeline, playback clock and audio window

    A shallow embedding of the timeline code of the repository:

    - [Movie.interpolate] / [Movie.getElementState] (the lazy resolver),
    - [Movie._precalculateFrames] / [Movie.updateFrame] (the eager dense
      table and its exact-frame lookup),
    - [MovieRenderer.play], [pause], [seek], [update] (the playback clock),
    - the audio branch of [MovieRenderer.renderFrame].

    Frame indices are integers ([Z]).  Property values are JavaScript
    numbers, strings or booleans; the arithmetic on numbers is taken
    through the interface [JsNumber], and the theorems on the timeline hold
    for every instance of it.  Two instances are given: IEEE-754 binary64
    ([float]), the numbers of the program, and exact rationals ([Qc]). *)

From Stdlib Require Import ZArith QArith Qcanon Qround Floats Lia.
From stdpp Require Import gmap strings list fin_maps sorting.

Set Default Proof Using "Type*".

(** ** JavaScript numbers *)

(** The operations the timeline code applies to numbers.  [nofZ] reads an
    integer (a frame index, or a difference of two) as a number. *)
Class JsNumber (N : Type) := {
  nadd : N → N → N;
  nsub : N → N → N;
  nmul : N → N → N;
  ndiv : N → N → N;
  nofZ : Z → N
}.

#[export] Instance Qc_JsNumber : JsNumber Qc := {|
  nadd := Qcplus;
  nsub := Qcminus;
  nmul := Qcmult;
  ndiv := Qcdiv;
  nofZ := λ z, Q2Qc (inject_Z z)
|}.

(** The binary64 value of an integer: the integer itself below 2^53 in
    absolute value, and the nearest binary64 value (ties to even, infinity
    on overflow) beyond. *)
Definition float_of_Z (z : Z) : float :=
  SF2Prim (binary_normalize prec emax z 0 false).

#[export] Instance float_JsNumber : JsNumber float := {|
  nadd := PrimFloat.add;
  nsub := PrimFloat.sub;
  nmul := PrimFloat.mul;
  ndiv := PrimFloat.div;
  nofZ := float_of_Z
|}.

(** ** Data model *)

(** A property value: [typeof v === 'number'] holds of [VNum] only.  A key
    that is absent from the map reads as [undefined]. *)
Inductive value (N : Type) : Type :=
  | VNum (n : N)
  | VStr (s : string)
  | VBool (b : bool).
Arguments VNum {N} n.
Arguments VStr {N} s.
Arguments VBool {N} b.

(** [interface Frame]: the [frame] field and the open-ended properties
    (every own key other than ['frame']). *)
Record Frame (N : Type) : Type := mkFrame {
  frame : Z;
  props : gmap string (value N)
}.
Arguments mkFrame {N} frame props.
Arguments frame {N} f.
Arguments props {N} f.

Inductive ElementType : Type := image | text | audio.

(** [MovieElement]: the fields the timeline reads.  [startFrame] and
    [endFrame] are the optional bounds of an audio element. *)
Record MovieElement (N : Type) : Type := mkElement {
  id : string;
  type : ElementType;
  frames : list (Frame N);
  startFrame : option Z;
  endFrame : option Z
}.
Arguments mkElement {N} id type frames startFrame endFrame.
Arguments id {N} m.
Arguments type {N} m.
Arguments frames {N} m.
Arguments startFrame {N} m.
Arguments endFrame {N} m.

Record Movie (N : Type) : Type := mkMovie {
  elements : list (MovieElement N);
  duration : Z;
  loop : bool;
  fps : Qc
}.
Arguments mkMovie {N} elements duration loop fps.
Arguments elements {N} m.
Arguments duration {N} m.
Arguments loop {N} m.
Arguments fps {N} m.

Definition isAudio (t : ElementType) : bool :=
  match t with audio => true | _ => false end.

Definition isNumber {N} (v : value N) : bool :=
  match v with VNum _ => true | _ => false end.

Section Timeline.
Context {N : Type} `{JsNumber N}.

(** [{ ...k, frame: f }] *)
Definition withFrame (k : Frame N) (f : Z) : Frame N :=
  mkFrame f (props k).

(** *** [[...frames].sort((a, b) => a.frame - b.frame)]

    [Array.prototype.sort] is a stable sort; it is modelled by stable
    insertion on the [frame] field. *)
Fixpoint insertFrame (k : Frame N) (l : list (Frame N)) : list (Frame N) :=
  match l with
  | [] => [k]
  | y :: l' =>
      if (frame k <=? frame y)%Z then k :: y :: l' else y :: insertFrame k l'
  end.

Definition sortFrames (l : list (Frame N)) : list (Frame N) :=
  foldr insertFrame [] l.

(** *** The scan for the surrounding keyframes

    [prev] and [next] are references into the sorted array; a reference
    is modelled by its index, and [prev === next] by equality of the
    indices.  [scanFrom l i t prev next] runs the loop body on the
    elements [l] that start at index [i]. *)
Fixpoint scanFrom (l : list (Frame N)) (i : nat) (t : Z) (prev next : nat)
  : nat * nat :=
  match l with
  | [] => (prev, next)
  | k :: l' =>
      if (frame k <=? t)%Z then scanFrom l' (S i) t i next else (prev, i)
  end.

Definition scan (sorted : list (Frame N)) (t : Z) : nat * nat :=
  scanFrom sorted 0 t 0 (length sorted - 1).

(** [v1 + (v2 - v1) * ratio] *)
Definition lerp (v1 v2 ratio : N) : N := nadd v1 (nmul (nsub v2 v1) ratio).

(** [(t - prev.frame) / (next.frame - prev.frame)]; the two differences
    are differences of integers. *)
Definition ratioOf (t : Z) (prev next : Frame N) : N :=
  ndiv (nofZ (t - frame prev)) (nofZ (frame next - frame prev)).

(** *** The lazy resolver *)

(** The body of [keys.forEach] in [interpolate], for one key with values
    [v1 = prevFrame[key]] and [v2 = nextFrame[key]]. *)
Definition mergeKey (ratio : N) (v1 v2 : option (value N))
  : option (value N) :=
  match v1, v2 with
  | Some (VNum a), Some (VNum b) => Some (VNum (lerp a b ratio))
  | Some v, _ => Some v
  | None, _ => None
  end.

Definition interpolate (frames : list (Frame N)) (targetFrame : Z)
  : Frame N :=
  let sortedFrames := sortFrames frames in
  match sortedFrames with
  | [] => mkFrame targetFrame ∅
  | k0 :: _ =>
      let '(pi, ni) := scan sortedFrames targetFrame in
      let prevFrame := nth pi sortedFrames k0 in
      let nextFrame := nth ni sortedFrames k0 in
      if (pi =? ni)%nat then withFrame prevFrame targetFrame
      else if (targetFrame <? frame prevFrame)%Z
      then withFrame prevFrame targetFrame
      else if (frame nextFrame <? targetFrame)%Z
      then withFrame nextFrame targetFrame
      else
        let ratio := ratioOf targetFrame prevFrame nextFrame in
        mkFrame targetFrame
          (merge (mergeKey ratio) (props prevFrame) (props nextFrame))
  end.

Definition getElementState (m : Movie N) (elementId : string) (frame : Z)
  : option (Frame N) :=
  match List.find (λ e, String.eqb (id e) elementId) (elements m) with
  | None => None
  | Some element => Some (interpolate (frames element) frame)
  end.

(** *** The eager dense table *)

(** The keys of one keyframe that hold a number. *)
Definition numericKeys (kf : Frame N) : gset string :=
  dom (filter (λ kv, isNumber kv.2) (props kf)).

Definition propsToInterpolate (keyframes : list (Frame N)) : gset string :=
  ⋃ (numericKeys <$> keyframes).

(** The body of [propsToInterpolate.forEach], on the frame under
    construction [acc]. *)
Definition interpolateProp (ratio : N) (prev next : Frame N)
    (acc : gmap string (value N)) (prop : string) : gmap string (value N) :=
  match props prev !! prop, props next !! prop with
  | Some (VNum v1), Some (VNum v2) => <[prop := VNum (lerp v1 v2 ratio)]> acc
  | _, _ => acc
  end.

(** One iteration of the loop [for (let f = 0; f <= this.duration; f++)]:
    the entry pushed on [fullFrames]. *)
Definition precalcFrame (keyframes : list (Frame N)) (toInterpolate : gset string)
    (f : Z) : Frame N :=
  match List.find (λ k, (frame k =? f)%Z) keyframes with
  | Some exact => exact
  | None =>
      match keyframes with
      | [] => mkFrame f ∅
      | k0 :: _ =>
          let '(pi, ni) := scan keyframes f in
          let prev := nth pi keyframes k0 in
          let next := nth ni keyframes k0 in
          if (f <? frame prev)%Z then withFrame prev f
          else if (frame next <? f)%Z then withFrame next f
          else if (pi =? ni)%nat then withFrame prev f
          else
            let ratio := ratioOf f prev next in
            mkFrame f
              (foldl (interpolateProp ratio prev next) (props prev)
                     (base.elements toInterpolate))
      end
  end.

(** The dense table of one keyframe list: [fullFrames]. *)
Definition fullFrames (duration : Z) (keyframes : list (Frame N))
  : list (Frame N) :=
  precalcFrame keyframes (propsToInterpolate keyframes)
    <$> seqZ 0 (duration + 1).

(** The body of the loop over the elements in [_precalculateFrames]. *)
Definition precalcElement (duration : Z) (element : MovieElement N)
  : MovieElement N :=
  if isAudio (type element) then element
  else
    let keyframes := sortFrames (frames element) in
    match keyframes with
    | [] => element
    | _ :: _ =>
        mkElement (id element) (type element) (fullFrames duration keyframes)
          (startFrame element) (endFrame element)
    end.

Definition _precalculateFrames (m : Movie N) : Movie N :=
  mkMovie (precalcElement (duration m) <$> elements m)
    (duration m) (loop m) (fps m).

(** [element.frames.find(f => f.frame === frame)] in [updateFrame]. *)
Definition findState (frames : list (Frame N)) (frame0 : Z) : option (Frame N) :=
  List.find (λ s, (frame s =? frame0)%Z) frames.

(** The state [updateFrame] applies to the drawable of [element]: none
    for an audio element, which the loop skips. *)
Definition updateFrameState (element : MovieElement N) (frame0 : Z)
  : option (Frame N) :=
  if isAudio (type element) then None else findState (frames element) frame0.

End Timeline.

(** ** Playback clock and audio window *)

(** The clock position and the media offsets are exact rationals; the one
    operation of the clock that leaves them is [%] by zero, whose result
    [NaN] is [None] in a position of type [option Qc]. *)

Definition Qcltb (x y : Qc) : bool :=
  match (x ?= y)%Qc with Lt => true | _ => false end.

Definition ZtoQc (z : Z) : Qc := Q2Qc (inject_Z z).

(** Rounding towards zero, as [%] on numbers does. *)
Definition Qctrunc (x : Qc) : Z := Z.quot (Qnum x) (Zpos (Qden x)).

(** [x % d]: [NaN] when [d] is zero, and otherwise [x - d * trunc (x / d)],
    which has the sign of [x]. *)
Definition jsRem (x d : Qc) : option Qc :=
  if Qc_eq_bool d 0 then None
  else Some (x - d * ZtoQc (Qctrunc (x / d)))%Qc.

(** [Math.floor] *)
Definition floorQc (x : Qc) : Z := Qfloor x.

Definition absQc (x : Qc) : Qc := if Qcltb x 0 then (- x)%Qc else x.

(** An [HTMLAudioElement], as far as the renderer drives it.  [item.play()]
    clears [paused] at once; that the browser may refuse to start the media
    is reported later through the promise and is not part of the model. *)
Record HTMLAudioElement : Type := mkAudio {
  paused : bool;
  currentTime : Qc
}.

(** [MovieRenderer]: [onTicker] records whether [update] is registered with
    [app.ticker]; [elementMap] holds the audio entries of the source's
    [elementMap]. *)
Record MovieRenderer : Type := mkRenderer {
  isPlaying : bool;
  currentFrame : option Qc;
  onTicker : bool;
  elementMap : gmap string HTMLAudioElement
}.

Section Renderer.
Context {N : Type}.

(** [(frame - startFrame) / this.movie.fps] *)
Definition expectedTimeAt (movie : Movie N) (f startFrame0 : Z) : Qc :=
  (ZtoQc (f - startFrame0) / fps movie)%Qc.

(** The audio branch of [renderFrame] for one audio element and its
    media [item].  [frame0] is [None] for [NaN], of which the window test
    [frame >= startFrame && frame < endFrame] is false. *)
Definition renderAudio (movie : Movie N) (playing : bool) (frame0 : option Z)
    (element : MovieElement N) (item : HTMLAudioElement) : HTMLAudioElement :=
  let startFrame0 := default 0%Z (startFrame element) in
  let endFrame0 := default (duration movie) (endFrame element) in
  match frame0 with
  | Some f =>
      if (startFrame0 <=? f)%Z && (f <? endFrame0)%Z then
        if playing && paused item then
          mkAudio false (expectedTimeAt movie f startFrame0)
        else if playing && negb (paused item) then
          let expectedTime := expectedTimeAt movie f startFrame0 in
          if Qcltb (Q2Qc (1 # 2)) (absQc (currentTime item - expectedTime)%Qc)
          then mkAudio (paused item) expectedTime
          else item
        else item
      else if negb (paused item) then mkAudio true 0%Qc else item
  | None => if negb (paused item) then mkAudio true 0%Qc else item
  end.

(** One iteration of the loop of [renderFrame]; the visual branch writes
    to drawables only, which are not part of the renderer's state here. *)
Definition renderElement (movie : Movie N) (playing : bool) (frame0 : option Z)
    (emap : gmap string HTMLAudioElement) (element : MovieElement N)
  : gmap string HTMLAudioElement :=
  if isAudio (type element) then
    match emap !! id element with
    | Some item =>
        <[id element := renderAudio movie playing frame0 element item]> emap
    | None => emap
    end
  else emap.

Definition renderFrame (movie : Movie N) (r : MovieRenderer) (frame0 : option Z)
  : MovieRenderer :=
  mkRenderer (isPlaying r) (currentFrame r) (onTicker r)
    (foldl (renderElement movie (isPlaying r) frame0) (elementMap r)
           (elements movie)).

Definition play (r : MovieRenderer) : MovieRenderer :=
  if isPlaying r then r
  else mkRenderer true (currentFrame r) true (elementMap r).

(** [pause]: also pauses every audio item. *)
Definition pause (r : MovieRenderer) : MovieRenderer :=
  mkRenderer false (currentFrame r) false
    ((λ item, mkAudio true (currentTime item)) <$> elementMap r).

Definition seek (movie : Movie N) (r : MovieRenderer) (frame0 : Z)
  : MovieRenderer :=
  renderFrame movie
    (mkRenderer (isPlaying r) (Some (ZtoQc frame0)) (onTicker r) (elementMap r))
    (Some frame0).

Definition setCurrentFrame (r : MovieRenderer) (c : option Qc) : MovieRenderer :=
  mkRenderer (isPlaying r) c (onTicker r) (elementMap r).

(** The position after [this.currentFrame += speed * time.deltaTime]. *)
Definition advance (movie : Movie N) (r : MovieRenderer) (deltaTime : Qc)
  : option Qc :=
  let speed := (fps movie / ZtoQc 60)%Qc in
  (λ c, (c + speed * deltaTime)%Qc) <$> currentFrame r.

Definition update (movie : Movie N) (r : MovieRenderer) (deltaTime : Qc)
  : MovieRenderer :=
  let r1 := setCurrentFrame r (advance movie r deltaTime) in
  let r2 :=
    match currentFrame r1 with
    | Some c =>
        if Qcltb (ZtoQc (duration movie)) c then
          if loop movie then
            setCurrentFrame r1 (jsRem c (ZtoQc (duration movie)))
          else
            pause (setCurrentFrame r1 (Some (ZtoQc (duration movie))))
        else r1
    | None => r1
    end in
  renderFrame movie r2 (floorQc <$> currentFrame r2).

(** One tick of [app.ticker]: it calls [update] when it is registered. *)
Definition tick (movie : Movie N) (r : MovieRenderer) (deltaTime : Qc)
  : MovieRenderer :=
  if onTicker r then update movie r deltaTime else r.

End Renderer.

(** ** Sample data *)

Definition kf_x {N} `{JsNumber N} (f x : Z) : Frame N :=
  mkFrame f {[ "x" := VNum (nofZ x) ]}.

Definition sample_0_10 {N} `{JsNumber N} : list (Frame N) :=
  [kf_x 0 0; kf_x 10 100].

Definition sampleElement {N} `{JsNumber N} : MovieElement N :=
  mkElement "a" image sample_0_10 None None.

(** Two keyframes on the same frame, with different values. *)
Definition dupFrames : list (Frame Qc) := [kf_x 0 1; kf_x 0 2].

Definition dupElement : MovieElement Qc :=
  mkElement "a" image dupFrames None None.

Definition dupMovie : Movie Qc := mkMovie [dupElement] 0 true (ZtoQc 60).

(** The same three keyframes as [unsortedFrames] below, in binary64. *)
Definition unsortedFloatFrames : list (Frame float) :=
  [kf_x 8 80; kf_x 4 1; kf_x 4 2].

(** Three keyframes given out of order, two of them on frame 4. *)
Definition unsortedFrames : list (Frame Qc) :=
  [kf_x 8 80; kf_x 4 1; kf_x 4 2].

Definition emptyElement : MovieElement Qc := mkElement "e" text [] None None.

(** The binary64 value of the literal [1e308]. *)
Definition float_1e308 : float := 0x1.1ccf385ebc8ap+1023%float.

(** Two binary64 keyframes, [{frame: 0, x: -1e308}] and
    [{frame: 10, x: 1e308}], whose values are further apart than the
    largest finite number. *)
Definition farApartFrames : list (Frame float) :=
  [mkFrame 0 {[ "x" := VNum (PrimFloat.opp float_1e308) ]};
   mkFrame 10 {[ "x" := VNum float_1e308 ]}].

Definition farApartElement : MovieElement float :=
  mkElement "far" image farApartFrames None None.

(** Two keyframes on frame 0, the second far from the keyframe on frame
    10. *)
Definition dupFarApartFrames : list (Frame float) :=
  [mkFrame 0 {[ "x" := VNum 1%float ]};
   mkFrame 0 {[ "x" := VNum (PrimFloat.opp float_1e308) ]};
   mkFrame 10 {[ "x" := VNum float_1e308 ]}].

Definition audioElement : MovieElement Qc :=
  mkElement "bgm" audio [kf_x 0 0] (Some 30%Z) (Some 60%Z).

Definition sampleMovie : Movie Qc :=
  mkMovie [sampleElement; audioElement; emptyElement] 10 true (ZtoQc 60).

Definition loopMovie : Movie Qc := mkMovie [] 100 true (ZtoQc 60).
Definition stopMovie : Movie Qc := mkMovie [] 100 false (ZtoQc 60).
Definition zeroMovie : Movie Qc := mkMovie [] 0 true (ZtoQc 60).

Definition rendererAt (position : Z) : MovieRenderer :=
  mkRenderer true (Some (ZtoQc position)) true ∅.

Definition audioMovie : Movie Qc :=
  mkMovie [audioElement] 100 true (ZtoQc 30).

Definition audioRenderer (item : HTMLAudioElement) : MovieRenderer :=
  mkRenderer true (Some (ZtoQc 0)) true {[ "bgm" := item ]}.

(** The keyframes of [l] whose [frame] field is [t], in the order of [l]. *)
Definition atFrame {N} (t : Z) (l : list (Frame N)) : list (Frame N) :=
  List.filter (λ k, (frame k =? t)%Z) l.

(** The length of the longest prefix of [l] whose frames are at most [t]. *)
Fixpoint prefixLen {N} (l : list (Frame N)) (t : Z) : nat :=
  match l with
  | [] => 0
  | k :: l' => if (frame k <=? t)%Z then S (prefixLen l' t) else 0
  end.

Definition frameLe {N} (a b : Frame N) : Prop := (frame a ≤ frame b)%Z.

(** What one key becomes when [prev] and [next] both hold a number on it. *)
Definition lerpAt {N} `{JsNumber N} (ratio : N) (prev next : Frame N)
    (key : string) : option (value N) :=
  match props prev !! key, props next !! key with
  | Some (VNum v1), Some (VNum v2) => Some (VNum (lerp v1 v2 ratio))
  | _, _ => None
  end.

(** The interpolation from [p], at the frame of [p], towards [n] gives
    back the numbers of [p]: on every key that holds a number on both,
    [v1 + (v2 - v1) * ratio] evaluates to [v1] at the ratio
    [(p.frame - p.frame) / (n.frame - p.frame)]. *)
Definition startsExactly {N} `{JsNumber N} (p n : Frame N) : Prop :=
  ∀ key a b,
    props p !! key = Some (VNum a) → props n !! key = Some (VNum b) →
    lerp a b (ratioOf (frame p) p n) = a.

(** [startsExactly] for every keyframe of [kfs] on frame [t] towards every
    later keyframe of [kfs]. *)
Definition exactAtFrame {N} `{JsNumber N} (t : Z) (kfs : list (Frame N))
  : Prop :=
  ∀ p n, p ∈ kfs → n ∈ kfs → frame p = t → (t < frame n)%Z →
         startsExactly p n.

(** ** Drawables, set-up and runs of the renderer *)

(** The six properties that [updateFrame] and the visual branch of
    [renderFrame] copy from a state onto a drawable: the key read from the
    state and the path written on the drawable. *)
Definition stateKeys : list (string * string) :=
  [("x", "x"); ("y", "y"); ("alpha", "alpha"); ("scaleX", "scale.x");
   ("scaleY", "scale.y"); ("rotation", "rotation")].

(** [if (state.k !== undefined) pixiObject.k' = state.k] *)
Definition applyKey {N} (state : Frame N) (obj : gmap string (value N))
    (kk : string * string) : gmap string (value N) :=
  match props state !! kk.1 with
  | Some v => <[kk.2 := v]> obj
  | None => obj
  end.

(** The six assignments, in the order of the source.  A drawable is the
    map of the paths the renderer writes. *)
Definition applyState {N} (state : Frame N) (obj : gmap string (value N))
  : gmap string (value N) :=
  foldl (applyKey state) obj stateKeys.

(** Whether a state defines one of the six properties, that is, whether
    applying it writes to the drawable. *)
Definition writesDrawable {N} (state : Frame N) : bool :=
  existsb (λ kk : string * string, bool_decide (is_Some (props state !! kk.1)))
    stateKeys.

(** One iteration of the loop of [Movie.updateFrame] over the drawables
    [emap] (the movie's [elementMap]).  The drawable is read with
    [this.elementMap.get(element.id)!]: when the id is not registered the
    first assignment throws a [TypeError], which is [None] here. *)
Definition updateElement {N} (frame0 : Z)
    (acc : option (gmap string (gmap string (value N))))
    (element : MovieElement N) : option (gmap string (gmap string (value N))) :=
  match acc with
  | None => None
  | Some emap =>
      if isAudio (type element) then Some emap
      else
        match findState (frames element) frame0 with
        | None => Some emap
        | Some state =>
            match emap !! id element with
            | Some obj => Some (<[id element := applyState state obj]> emap)
            | None => if writesDrawable state then None else Some emap
            end
        end
  end.

Definition updateFrame {N} (m : Movie N)
    (emap : gmap string (gmap string (value N))) (frame0 : Z)
  : option (gmap string (gmap string (value N))) :=
  foldl (updateElement frame0) (Some emap) (elements m).

(** One iteration of the loop of [renderFrame] in the renderer that holds
    drawables only (src/render): the state is resolved lazily, and it is
    applied when the id has a drawable ([if (pixiObject && state)]). *)
Definition renderVisualElement {N} `{JsNumber N} (m : Movie N) (frame0 : Z)
    (emap : gmap string (gmap string (value N))) (element : MovieElement N)
  : gmap string (gmap string (value N)) :=
  match getElementState m (id element) frame0, emap !! id element with
  | Some state, Some obj => <[id element := applyState state obj]> emap
  | _, _ => emap
  end.

Definition renderVisual {N} `{JsNumber N} (m : Movie N)
    (emap : gmap string (gmap string (value N))) (frame0 : Z)
  : gmap string (gmap string (value N)) :=
  foldl (renderVisualElement m frame0) emap (elements m).

(** The renderer the constructor builds. *)
Definition newRenderer : MovieRenderer :=
  mkRenderer false (Some (ZtoQc 0)) false ∅.

(** The audio entries [setupElements] leaves in [elementMap]: a fresh
    [Audio] (paused, at offset zero) for an audio element; an image or a
    text element registers a drawable under its id, which removes an audio
    entry of the same id. *)
Definition setupElement {N} (emap : gmap string HTMLAudioElement)
    (element : MovieElement N) : gmap string HTMLAudioElement :=
  if isAudio (type element) then <[id element := mkAudio true 0%Qc]> emap
  else delete (id element) emap.

Definition setupElements {N} (movie : Movie N) (r : MovieRenderer)
  : MovieRenderer :=
  mkRenderer (isPlaying r) (currentFrame r) (onTicker r)
    (foldl setupElement (elementMap r) (elements movie)).

(** The calls a host makes on a renderer: [play], [pause], [seek] and the
    ticks of [app.ticker]. *)
Inductive RendererCall : Type :=
  | CallPlay
  | CallPause
  | CallSeek (frame0 : Z)
  | CallTick (deltaTime : Qc).

Definition call {N} (movie : Movie N) (r : MovieRenderer) (c : RendererCall)
  : MovieRenderer :=
  match c with
  | CallPlay => play r
  | CallPause => pause r
  | CallSeek f => seek movie r f
  | CallTick dt => tick movie r dt
  end.

(** A run of calls from the renderer as [init] leaves it. *)
Definition run {N} (movie : Movie N) (calls : list RendererCall)
  : MovieRenderer :=
  foldl (call movie) (setupElements movie newRenderer) calls.

(** Every audio item is paused. *)
Definition allPaused (emap : gmap string HTMLAudioElement) : Prop :=
  map_Forall (λ _ item, paused item = true) emap.

(** What the renderer keeps over every run: [update] is registered with
    the ticker exactly while the movie is playing, and while it is not
    playing every audio item is paused. *)
Definition rendererInv (r : MovieRenderer) : Prop :=
  isPlaying r = onTicker r
  ∧ (isPlaying r = false → allPaused (elementMap r)).

(** More sample data *)

Definition reversed_0_10 : list (Frame Qc) := [kf_x 10 100; kf_x 0 0].

Definition titleFrames : list (Frame Qc) :=
  [mkFrame 0 {[ "x" := VNum (ZtoQc 0); "label" := VStr "intro";
                "alpha" := VNum (ZtoQc 1) ]};
   mkFrame 10 {[ "x" := VNum (ZtoQc 100); "label" := VStr "outro";
                 "rotation" := VNum (ZtoQc 3) ]}].

Definition titleElement : MovieElement Qc :=
  mkElement "title" text titleFrames None None.

Definition titleMovie : Movie Qc :=
  mkMovie [titleElement; audioElement] 10 true (ZtoQc 60).

Definition freeAudioElement : MovieElement Qc :=
  mkElement "loop" audio [] None None.

(** A drawable as Pixi creates it, and the drawables of [titleMovie]. *)
Definition freshDrawable : gmap string (value Qc) :=
  {[ "x" := VNum (ZtoQc 0); "y" := VNum (ZtoQc 0); "alpha" := VNum (ZtoQc 1);
     "scale.x" := VNum (ZtoQc 1); "scale.y" := VNum (ZtoQc 1);
     "rotation" := VNum (ZtoQc 0) ]}.

Definition titleDrawables : gmap string (gmap string (value Qc)) :=
  {[ "title" := freshDrawable ]}.

(** A binary64 movie of the one element [sampleElement], and a drawable
    for it. *)
Definition floatMovie : Movie float :=
  mkMovie [sampleElement] 10 true (ZtoQc 60).

Definition floatDrawables : gmap string (gmap string (value float)) :=
  {[ "a" := {[ "x" := VNum 7%float; "y" := VNum 9%float ]} ]}.

(** * Properties *)

(** ** Exact rationals *)

Lemma Qcltb_lt (x y : Qc) : Qcltb x y = true ↔ (x < y)%Qc.
Proof.
  unfold Qcltb. rewrite Qclt_alt.
  destruct (x ?= y)%Qc; split; congruence.
Qed.

Lemma Qcltb_ge (x y : Qc) : Qcltb x y = false ↔ (y <= x)%Qc.
Proof.
  rewrite <- not_true_iff_false, Qcltb_lt. split.
  - apply Qcnot_lt_le.
  - intros Hle Hlt. exact (Qcle_not_lt _ _ Hle Hlt).
Qed.

(** ** The stable sort *)

Section SortFacts.
Context {N : Type} `{JsNumber N}.
Implicit Types (k : Frame N) (l : list (Frame N)).

Lemma insertFrame_Permutation k l : insertFrame k l ≡ₚ k :: l.
Proof.
  induction l as [|y l IH]; simpl; [done|].
  destruct (frame k <=? frame y)%Z; [done|].
  rewrite IH. apply Permutation_swap.
Qed.

Lemma sortFrames_Permutation l : sortFrames l ≡ₚ l.
Proof.
  induction l as [|k l IH]; simpl; [done|].
  rewrite insertFrame_Permutation. by f_equiv.
Qed.

Lemma elem_of_sortFrames k l : k ∈ sortFrames l ↔ k ∈ l.
Proof. by rewrite sortFrames_Permutation. Qed.

Lemma sortFrames_nil_inv l : sortFrames l = [] → l = [].
Proof.
  intros Hs. apply Permutation_nil_r. by rewrite <- Hs, sortFrames_Permutation.
Qed.

Lemma insertFrame_sorted k l :
  StronglySorted frameLe l → StronglySorted frameLe (insertFrame k l).
Proof.
  induction 1 as [|y l Hl IH Hy]; simpl.
  - repeat constructor.
  - destruct (frame k <=? frame y)%Z eqn:Hky.
    + apply Z.leb_le in Hky. constructor; [by constructor|].
      constructor; [done|].
      eapply Forall_impl; [exact Hy|]. unfold frameLe. intros; lia.
    + apply Z.leb_gt in Hky. constructor; [done|].
      rewrite insertFrame_Permutation. constructor; [|done].
      unfold frameLe. lia.
Qed.

Lemma sortFrames_sorted l : StronglySorted frameLe (sortFrames l).
Proof.
  induction l; simpl; [constructor|]. by apply insertFrame_sorted.
Qed.

(** Stability: keyframes with the same [frame] keep their order. *)
Lemma atFrame_insertFrame t k l :
  atFrame t (insertFrame k l) = atFrame t (k :: l).
Proof.
  unfold atFrame. induction l as [|y l IH]; [done|].
  cbn [insertFrame]. destruct (frame k <=? frame y)%Z eqn:Hky; [done|].
  apply Z.leb_gt in Hky. cbn [List.filter] in *. rewrite IH.
  destruct (frame k =? t)%Z eqn:Hk, (frame y =? t)%Z eqn:Hy; try done.
  apply Z.eqb_eq in Hk, Hy. lia.
Qed.

Lemma atFrame_sortFrames t l : atFrame t (sortFrames l) = atFrame t l.
Proof.
  induction l as [|k l IH]; [done|].
  cbn [sortFrames foldr]. rewrite atFrame_insertFrame.
  unfold atFrame in *. cbn [List.filter]. fold (sortFrames l). by rewrite IH.
Qed.

Lemma insertFrame_head k y l :
  (frame k ≤ frame y)%Z → insertFrame k (y :: l) = k :: y :: l.
Proof. intros Hle. simpl. by rewrite (proj2 (Z.leb_le _ _) Hle). Qed.

End SortFacts.

(** ** The scan *)

Section ScanFacts.
Context {N : Type} `{JsNumber N}.
Implicit Types (k : Frame N) (l : list (Frame N)).

Lemma scanFrom_prefixLen l i t p n :
  scanFrom l i t p n =
    (match prefixLen l t with 0 => p | S c => i + c end,
     if (prefixLen l t =? length l)%nat then n else i + prefixLen l t).
Proof.
  revert i p n. induction l as [|k l IH]; intros i p n; [done|].
  cbn [scanFrom prefixLen length].
  destruct (frame k <=? t)%Z.
  - rewrite IH. cbn [Nat.eqb]. f_equal.
    + destruct (prefixLen l t); lia.
    + destruct (prefixLen l t =? length l)%nat; lia.
  - cbn [Nat.eqb]. f_equal. lia.
Qed.

Lemma scan_prefixLen l t :
  scan l t =
    (match prefixLen l t with 0 => 0 | S c => c end,
     if (prefixLen l t =? length l)%nat then length l - 1
     else prefixLen l t).
Proof. unfold scan. by rewrite scanFrom_prefixLen. Qed.

Lemma prefixLen_le l t : prefixLen l t ≤ length l.
Proof.
  induction l as [|k l IH]; simpl; [lia|].
  destruct (frame k <=? t)%Z; lia.
Qed.

(** The keyframe on which the loop breaks is past the target. *)
Lemma prefixLen_next l t n :
  l !! prefixLen l t = Some n → (t < frame n)%Z.
Proof.
  induction l as [|k l IH]; simpl; [done|].
  destruct (frame k <=? t)%Z eqn:Hk; simpl; [done|].
  intros [= <-]. by apply Z.leb_gt.
Qed.

Lemma prefixLen_all_le l t :
  Forall (λ k, (frame k ≤ t)%Z) l → prefixLen l t = length l.
Proof.
  induction 1 as [|k l Hk _ IH]; simpl; [done|].
  by rewrite (proj2 (Z.leb_le _ _) Hk), IH.
Qed.

Lemma prefixLen_head_gt k l t : (t < frame k)%Z → prefixLen (k :: l) t = 0.
Proof. intros Hk. simpl. by rewrite (proj2 (Z.leb_gt _ _) Hk). Qed.

Lemma atFrame_elem_of t l k : k ∈ atFrame t l ↔ k ∈ l ∧ frame k = t.
Proof.
  unfold atFrame. rewrite !list_elem_of_In, filter_In, Z.eqb_eq. done.
Qed.

Lemma atFrame_nil_above t k l :
  (t < frame k)%Z → Forall (frameLe k) l → atFrame t l = [].
Proof.
  intros Hk Hl. destruct (atFrame t l) as [|x xs] eqn:Hx; [done|].
  assert (x ∈ atFrame t l) as [Hin Hfx]%atFrame_elem_of
    by (rewrite Hx; left).
  rewrite Forall_forall in Hl. specialize (Hl x Hin).
  unfold frameLe in Hl. lia.
Qed.

(** On a sorted array the scan leaves [prev] on the last keyframe whose
    frame is the target, when there is one. *)
Lemma prefixLen_last_atFrame l t p :
  StronglySorted frameLe l →
  last (atFrame t l) = Some p →
  ∃ c, prefixLen l t = S c ∧ l !! c = Some p.
Proof.
  induction 1 as [|k l Hl IH Hk]; [done|].
  intros Hlast. cbn [prefixLen].
  destruct (frame k <=? t)%Z eqn:Hkt.
  - apply Z.leb_le in Hkt.
    destruct (atFrame t l) as [|x xs] eqn:Hx.
    + unfold atFrame in Hlast, Hx. cbn [List.filter] in Hlast.
      rewrite Hx in Hlast.
      destruct (frame k =? t)%Z eqn:Hkeq; [|done].
      apply Z.eqb_eq in Hkeq. injection Hlast as <-.
      exists 0. split; [|done]. f_equal.
      destruct l as [|y l]; [done|].
      apply prefixLen_head_gt.
      apply Forall_cons in Hk as [Hky _]. unfold frameLe in Hky.
      assert (frame y ≠ t); [|lia].
      intros Hyt. assert (y ∈ atFrame t (y :: l)) as Hin
        by (apply atFrame_elem_of; split; [left|done]).
      unfold atFrame in Hin. rewrite Hx in Hin. by apply not_elem_of_nil in Hin.
    + destruct IH as (c & Hc & Hp).
      { unfold atFrame in Hlast, Hx. cbn [List.filter] in Hlast.
        rewrite Hx in Hlast.
        destruct (frame k =? t)%Z; by rewrite ?last_cons_cons in Hlast. }
      exists (S c). by rewrite Hc.
  - apply Z.leb_gt in Hkt. exfalso.
    assert (atFrame t (k :: l) = []) as Hnil.
    { unfold atFrame. cbn [List.filter].
      rewrite (proj2 (Z.eqb_neq _ _)) by lia.
      by apply (atFrame_nil_above t k). }
    by rewrite Hnil in Hlast.
Qed.

Lemma find_atFrame t l :
  List.find (λ k, (frame k =? t)%Z) l = head (atFrame t l).
Proof.
  unfold atFrame. induction l as [|k l IH]; [done|].
  cbn [List.find List.filter]. by destruct (frame k =? t)%Z.
Qed.

Lemma nth_head_elem_of k0 l i : nth i (k0 :: l) k0 ∈ k0 :: l.
Proof.
  rewrite nth_lookup. destruct ((k0 :: l) !! i) as [x|] eqn:Hx; simpl.
  - by eapply list_elem_of_lookup_2.
  - left.
Qed.

End ScanFacts.

(** ** The two property merges *)

Section MergeFacts.
Context {N : Type} `{JsNumber N}.
Implicit Types (k prev next : Frame N) (l : list (Frame N)).

(** At the frame of [prev] the lazy merge returns the properties of
    [prev], when the interpolation gives back its numbers. *)
Lemma merge_mergeKey_start prev next :
  startsExactly prev next →
  merge (mergeKey (ratioOf (frame prev) prev next)) (props prev) (props next)
  = props prev.
Proof.
  intros Hexact. apply map_eq. intros key. rewrite lookup_merge.
  destruct (props prev !! key) as [[a|?|?]|] eqn:Hp,
    (props next !! key) as [[b'|?|?]|] eqn:Hn; simpl; try done.
  by rewrite (Hexact key a b').
Qed.

Lemma interpolateProp_lerpAt ratio prev next acc prop :
  interpolateProp ratio prev next acc prop =
    match lerpAt ratio prev next prop with
    | Some v => <[prop := v]> acc
    | None => acc
    end.
Proof.
  unfold interpolateProp, lerpAt.
  destruct (props prev !! prop) as [[?|?|?]|]; try done.
  destruct (props next !! prop) as [[?|?|?]|]; done.
Qed.

Lemma lookup_foldl_interpolateProp ratio prev next keys acc key :
  foldl (interpolateProp ratio prev next) acc keys !! key =
    match lerpAt ratio prev next key with
    | Some v => if decide (key ∈ keys) then Some v else acc !! key
    | None => acc !! key
    end.
Proof.
  revert acc. induction keys as [|p keys IH]; intros acc.
  - cbn [foldl]. destruct (lerpAt ratio prev next key); [|done].
    destruct (decide (key ∈ [])) as [Hin|]; [|done].
    by apply not_elem_of_nil in Hin.
  - cbn [foldl]. rewrite IH, interpolateProp_lerpAt.
    destruct (lerpAt ratio prev next key) as [v|] eqn:Hkey.
    + destruct (decide (key ∈ keys)) as [Hin|Hnin],
        (decide (key ∈ p :: keys)) as [Hin'|Hnin']; try done.
      * exfalso. apply Hnin'. by right.
      * apply elem_of_cons in Hin' as [->|]; [|done].
        by rewrite Hkey, lookup_insert_eq.
      * destruct (lerpAt ratio prev next p); [|done].
        rewrite lookup_insert_ne; [done|]. intros ->. apply Hnin'. left.
    + destruct (lerpAt ratio prev next p) as [v|] eqn:Hp; [|done].
      rewrite lookup_insert_ne; [done|]. intros ->. congruence.
Qed.

Lemma numeric_key_to_interpolate prev l key (a : N) :
  prev ∈ l → props prev !! key = Some (VNum a) →
  key ∈ propsToInterpolate l.
Proof.
  intros Hin Hkey. unfold propsToInterpolate.
  apply elem_of_union_list. exists (numericKeys prev). split.
  - apply list_elem_of_fmap. by exists prev.
  - unfold numericKeys. apply elem_of_dom. exists (VNum a).
    by apply map_lookup_filter_Some.
Qed.

(** The eager loop over [propsToInterpolate], started from a copy of
    [prev], builds the same properties as the lazy merge over the union
    of the keys. *)
Lemma interpolated_props_agree ratio prev next l :
  prev ∈ l →
  foldl (interpolateProp ratio prev next) (props prev)
    (base.elements (propsToInterpolate l))
  = merge (mergeKey ratio) (props prev) (props next).
Proof.
  intros Hin. apply map_eq. intros key.
  rewrite lookup_foldl_interpolateProp, lookup_merge. unfold lerpAt.
  destruct (props prev !! key) as [[a|?|?]|] eqn:Hp;
    destruct (props next !! key) as [[b'|?|?]|] eqn:Hn; simpl; try done.
  rewrite decide_True; [done|].
  apply elem_of_elements. by eapply numeric_key_to_interpolate.
Qed.

End MergeFacts.

(** ** When the interpolation gives back the numbers of a keyframe *)

(** In exact arithmetic, always. *)
Lemma startsExactly_Qc (p n : Frame Qc) : startsExactly p n.
Proof.
  intros key a b _ _. unfold lerp, ratioOf.
  cbn [nadd nsub nmul ndiv nofZ Qc_JsNumber]. rewrite Z.sub_diag.
  change (Q2Qc (inject_Z 0)) with 0%Qc. unfold Qcdiv. ring.
Qed.

Lemma Prim2SF_neg_zero (a : float) : Prim2SF a = S754_zero true → a = neg_zero.
Proof. intros Ha. apply Prim2SF_inj. rewrite Ha. reflexivity. Qed.

Lemma Prim2SF_is_zero (x : float) :
  is_zero x = true → ∃ s, Prim2SF x = S754_zero s.
Proof.
  unfold is_zero. rewrite FloatAxioms.eqb_spec.
  change (Prim2SF zero) with (S754_zero false).
  destruct (Prim2SF x) as [s|s| |s m e]; cbn; intros Hz.
  - by exists s.
  - destruct s; discriminate Hz.
  - discriminate Hz.
  - destruct s; discriminate Hz.
Qed.

Lemma Prim2SF_is_finite (x : float) :
  is_finite x = true →
  (∃ s, Prim2SF x = S754_zero s) ∨ (∃ s m e, Prim2SF x = S754_finite s m e).
Proof.
  unfold is_finite, is_nan, is_infinity. rewrite !FloatAxioms.eqb_spec, FloatAxioms.abs_spec.
  change (Prim2SF infinity) with (S754_infinity false).
  destruct (Prim2SF x) as [s|s| |s m e]; cbn; intros Hf.
  - left. by exists s.
  - destruct s; discriminate Hf.
  - discriminate Hf.
  - right. by exists s, m, e.
Qed.

(** In binary64, [v1 + (v2 - v1) * ratio] at a ratio that is zero is [v1]
    whenever the difference [v2 - v1] is finite (it did not overflow and
    is not [NaN]) and [v1] is not the negative zero. *)
Lemma binary64_lerp_start (a b ratio : float) :
  is_finite (b - a) = true → a ≠ neg_zero → is_zero ratio = true →
  lerp a b ratio = a.
Proof.
  intros Hfin Ha Hz. unfold lerp. cbn [nadd nsub nmul float_JsNumber].
  apply Prim2SF_inj. rewrite FloatAxioms.add_spec, FloatAxioms.mul_spec.
  destruct (Prim2SF_is_zero _ Hz) as [sr ->].
  assert (∃ s, SF64mul (Prim2SF (b - a)) (S754_zero sr) = S754_zero s)
    as [s ->].
  { destruct (Prim2SF_is_finite _ Hfin) as [[sd ->]|(sd & md & ed & ->)];
      eexists; reflexivity. }
  destruct (Prim2SF a) as [sa|sa| |sa ma ea] eqn:HA; try reflexivity.
  destruct sa; [exfalso; apply Ha; by apply Prim2SF_neg_zero|].
  destruct s; reflexivity.
Qed.

(** So in binary64 the interpolation from [p] gives back its numbers when
    the ratio at the frame of [p] is zero and no difference of a number of
    [n] and a number of [p] overflows. *)
Lemma startsExactly_binary64 (p n : Frame float) :
  is_zero (ratioOf (frame p) p n) = true →
  (∀ key a b,
     props p !! key = Some (VNum a) → props n !! key = Some (VNum b) →
     is_finite (b - a) = true ∧ a ≠ neg_zero) →
  startsExactly p n.
Proof.
  intros Hratio Hfin key a b Ha Hb.
  destruct (Hfin key a b Ha Hb) as [Hdiff Hneg].
  by apply binary64_lerp_start.
Qed.

(** For keyframes that hold the one property [x]. *)
Lemma startsExactly_kf_x {N} `{JsNumber N} (f x f' x' : Z) :
  lerp (nofZ x) (nofZ x') (ratioOf f (kf_x f x) (kf_x f' x')) = nofZ x →
  startsExactly (kf_x (N:=N) f x) (kf_x f' x').
Proof.
  intros Hl key a b Ha Hb. cbn [kf_x props frame] in *.
  apply lookup_singleton_Some in Ha as [<- [= <-]].
  apply lookup_singleton_Some in Hb as [_ [= <-]]. exact Hl.
Qed.

(** ** Resolution at and between keyframes *)

Section ResolveFacts.
Context {N : Type} `{JsNumber N}.
Implicit Types (k prev next : Frame N) (l kfs : list (Frame N)).

Lemma withFrame_same k : withFrame k (frame k) = k.
Proof. by destruct k. Qed.

Lemma last_atFrame_frame t l p : last (atFrame t l) = Some p → frame p = t.
Proof.
  intros Hl. assert (p ∈ atFrame t l) as Hin.
  { apply last_Some in Hl as [l' ->]. apply elem_of_app. right. left. }
  by apply atFrame_elem_of in Hin as [_ ?].
Qed.

(** The lazy resolver at a frame that has keyframes returns the last of
    them in the order of the sorted array, when the interpolation from it
    towards the later keyframes gives back its numbers. *)
Lemma interpolate_at_keyframe kfs t p :
  last (atFrame t (sortFrames kfs)) = Some p →
  (∀ n, n ∈ kfs → (t < frame n)%Z → startsExactly p n) →
  interpolate kfs t = withFrame p t.
Proof.
  intros Hlast Hexact. unfold interpolate.
  pose proof (sortFrames_sorted kfs) as Hsorted.
  destruct (prefixLen_last_atFrame _ _ _ Hsorted Hlast) as (c & Hc & Hp).
  pose proof (last_atFrame_frame _ _ _ Hlast) as Hfp.
  pose proof (prefixLen_le (sortFrames kfs) t) as Hle.
  pose proof (prefixLen_next (sortFrames kfs) t) as Hnext.
  destruct (sortFrames kfs) as [|k0 rest] eqn:Hs; [done|].
  rewrite scan_prefixLen, Hc. rewrite Hc in Hle, Hnext.
  destruct (S c =? length (k0 :: rest))%nat eqn:Hlen.
  - apply Nat.eqb_eq in Hlen. rewrite <- Hlen.
    replace (S c - 1) with c by lia. rewrite Nat.eqb_refl.
    by rewrite nth_lookup, Hp.
  - apply Nat.eqb_neq in Hlen.
    rewrite (proj2 (Nat.eqb_neq c (S c))) by lia.
    destruct (lookup_lt_is_Some_2 (k0 :: rest) (S c)) as [n Hn]; [lia|].
    rewrite !nth_lookup, Hp, Hn. cbn [from_option Datatypes.id].
    specialize (Hnext n Hn).
    rewrite (proj2 (Z.ltb_ge _ _)) by lia.
    rewrite (proj2 (Z.ltb_ge _ _)) by lia.
    unfold withFrame. f_equal. rewrite <- Hfp.
    apply merge_mergeKey_start. apply Hexact; [|lia].
    apply elem_of_sortFrames. rewrite Hs. by eapply list_elem_of_lookup_2.
Qed.

(** The eager table at a frame that has keyframes holds the first of
    them in the order of the sorted array. *)
Lemma precalcFrame_at_keyframe l toInterpolate t first :
  head (atFrame t l) = Some first →
  precalcFrame l toInterpolate t = first.
Proof. intros Hh. unfold precalcFrame. by rewrite find_atFrame, Hh. Qed.

(** Away from the keyframes the two modes take the same decisions. *)
Lemma precalcFrame_no_keyframe kfs t :
  atFrame t (sortFrames kfs) = [] →
  precalcFrame (sortFrames kfs) (propsToInterpolate (sortFrames kfs)) t
  = interpolate kfs t.
Proof.
  intros Hnone. unfold precalcFrame, interpolate.
  rewrite find_atFrame, Hnone. simpl head.
  destruct (sortFrames kfs) as [|k0 rest] eqn:Hs; [done|].
  destruct (scan (k0 :: rest) t) as [pi ni].
  set (prev := nth pi (k0 :: rest) k0).
  set (next := nth ni (k0 :: rest) k0).
  destruct (pi =? ni)%nat eqn:Hpn.
  - apply Nat.eqb_eq in Hpn. subst ni. subst next. fold prev.
    by destruct (t <? frame prev)%Z, (frame prev <? t)%Z.
  - destruct (t <? frame prev)%Z; [done|].
    destruct (frame next <? t)%Z; [done|].
    f_equal. apply interpolated_props_agree, nth_head_elem_of.
Qed.

(** [getElementState] resolves the keyframes of the element itself when
    no other element of the movie has its id. *)
Lemma getElementState_unique_id (m : Movie N) (e : MovieElement N) (f : Z) :
  NoDup (id <$> elements m) → e ∈ elements m →
  getElementState m (id e) f = Some (interpolate (frames e) f).
Proof.
  unfold getElementState. induction (elements m) as [|x els IH]; intros Hnd Hin.
  - by apply not_elem_of_nil in Hin.
  - rewrite fmap_cons in Hnd. apply NoDup_cons in Hnd as [Hx Hnd].
    cbn [List.find]. apply elem_of_cons in Hin as [->|Hin].
    + by rewrite String.eqb_refl.
    + destruct (String.eqb (id x) (id e)) eqn:Heq; [|by apply IH].
      apply String.eqb_eq in Heq. exfalso. apply Hx. rewrite Heq.
      apply list_elem_of_fmap. by exists e.
Qed.

End ResolveFacts.

(** ** The dense table *)

Section DenseFacts.
Context {N : Type} `{JsNumber N}.
Implicit Types (k : Frame N) (l kfs : list (Frame N)) (g : Z → Frame N).

(** Every entry pushed for frame [f] carries [f] in its [frame] field. *)
Lemma precalcFrame_frame l toInterpolate f :
  frame (precalcFrame l toInterpolate f) = f.
Proof.
  unfold precalcFrame.
  destruct (List.find _ l) as [exact|] eqn:Hfind.
  - apply find_some in Hfind as [_ Heq]. by apply Z.eqb_eq.
  - destruct l as [|k0 rest]; [done|].
    destruct (scan (k0 :: rest) f) as [pi ni].
    by repeat case_match.
Qed.

Lemma find_dense g m n t :
  (∀ f, frame (g f) = f) →
  (m ≤ t < m + n)%Z →
  List.find (λ s, (frame s =? t)%Z) (g <$> seqZ m n) = Some (g t).
Proof.
  intros Hg. remember (Z.to_nat n) as len eqn:Hlen.
  revert m n Hlen. induction len as [|len IH]; intros m n Hlen Ht; [lia|].
  rewrite seqZ_cons by lia. cbn [fmap list_fmap List.find].
  rewrite Hg. destruct (m =? t)%Z eqn:Hmt.
  - apply Z.eqb_eq in Hmt. by subst.
  - apply Z.eqb_neq in Hmt. apply IH; lia.
Qed.

Lemma sortFrames_dense g m n :
  (∀ f, frame (g f) = f) →
  sortFrames (g <$> seqZ m n) = g <$> seqZ m n.
Proof.
  intros Hg. remember (Z.to_nat n) as len eqn:Hlen.
  revert m n Hlen. induction len as [|len IH]; intros m n Hlen.
  - by rewrite seqZ_nil by lia.
  - rewrite seqZ_cons by lia. cbn [fmap list_fmap sortFrames foldr].
    fold (sortFrames (g <$> seqZ (Z.succ m) (Z.pred n))).
    rewrite IH by lia.
    destruct (decide (0 < Z.pred n)%Z) as [Hpos|Hneg].
    + rewrite (seqZ_cons (Z.succ m)) by lia. cbn [fmap list_fmap].
      apply insertFrame_head. rewrite !Hg. lia.
    + by rewrite seqZ_nil by lia.
Qed.

Lemma length_fullFrames d l : length (fullFrames d l) = Z.to_nat (d + 1).
Proof. unfold fullFrames. by rewrite length_fmap, length_seqZ. Qed.

Lemma lookup_fullFrames d l i :
  (0 ≤ i ≤ d)%Z →
  fullFrames d l !! Z.to_nat i
  = Some (precalcFrame l (propsToInterpolate l) i).
Proof.
  intros Hi. unfold fullFrames.
  rewrite list_lookup_fmap, lookup_seqZ_lt by lia.
  simpl. do 2 f_equal. lia.
Qed.

(** The exact-frame lookup of [updateFrame] in a dense table. *)
Lemma findState_fullFrames d l t :
  (0 ≤ t ≤ d)%Z →
  findState (fullFrames d l) t
  = Some (precalcFrame l (propsToInterpolate l) t).
Proof.
  intros Ht. unfold findState, fullFrames.
  apply (find_dense (precalcFrame l (propsToInterpolate l))); [|lia].
  intros f. apply precalcFrame_frame.
Qed.

Lemma sortFrames_fullFrames d l : sortFrames (fullFrames d l) = fullFrames d l.
Proof. apply sortFrames_dense. intros f. apply precalcFrame_frame. Qed.

(** Built from a dense table, the dense table is the same table. *)
Lemma fullFrames_idemp d l : fullFrames d (fullFrames d l) = fullFrames d l.
Proof.
  unfold fullFrames at 1 3. apply Forall_fmap_ext, Forall_seqZ.
  intros f Hf. unfold precalcFrame at 1.
  change (List.find _ (fullFrames d l)) with (findState (fullFrames d l) f).
  by rewrite findState_fullFrames by lia.
Qed.

Lemma precalcElement_idemp d (e : MovieElement N) :
  precalcElement d (precalcElement d e) = precalcElement d e.
Proof.
  unfold precalcElement at 2.
  destruct (isAudio (type e)) eqn:Haudio.
  - unfold precalcElement. by rewrite Haudio.
  - destruct (sortFrames (frames e)) as [|k0 rest] eqn:Hs.
    + unfold precalcElement. by rewrite Haudio, Hs.
    + unfold precalcElement. cbn [type frames id startFrame endFrame].
      rewrite Haudio, sortFrames_fullFrames, Hs, fullFrames_idemp.
      by destruct (fullFrames d (k0 :: rest)).
Qed.

End DenseFacts.

(** ** Properties of the timeline *)

Section ClampProps.
Context {N : Type} `{JsNumber N}.
Implicit Types (k : Frame N) (l kfs : list (Frame N)).

Lemma sorted_head_le k l :
  StronglySorted frameLe (k :: l) → Forall (frameLe k) (k :: l).
Proof.
  intros [Hk _]%StronglySorted_cons. constructor; [|done].
  unfold frameLe. lia.
Qed.

Lemma sorted_le_last l z :
  StronglySorted frameLe l → last l = Some z → Forall (λ k, frameLe k z) l.
Proof.
  induction 1 as [|k l Hl IH Hk]; [done|]. intros Hlast.
  destruct l as [|y l'].
  - injection Hlast as ->. repeat constructor. unfold frameLe. lia.
  - rewrite last_cons_cons in Hlast. constructor; [|by apply IH].
    rewrite Forall_forall in Hk. apply Hk.
    apply last_Some in Hlast as [l'' ->]. apply elem_of_app. right. left.
Qed.

Lemma interpolate_before kfs t first :
  head (sortFrames kfs) = Some first → (t < frame first)%Z →
  interpolate kfs t = withFrame first t.
Proof.
  intros Hhd Hlt. unfold interpolate.
  destruct (sortFrames kfs) as [|k0 rest]; [done|].
  injection Hhd as ->.
  by rewrite scan_prefixLen, prefixLen_head_gt.
Qed.

Lemma precalcFrame_before kfs toInterpolate t first :
  head (sortFrames kfs) = Some first → (t < frame first)%Z →
  precalcFrame (sortFrames kfs) toInterpolate t = withFrame first t.
Proof.
  intros Hhd Hlt. unfold precalcFrame. rewrite find_atFrame.
  pose proof (sortFrames_sorted kfs) as Hsorted.
  destruct (sortFrames kfs) as [|k0 rest]; [done|].
  injection Hhd as ->.
  rewrite (atFrame_nil_above t first) by (done || by apply sorted_head_le).
  simpl head. rewrite scan_prefixLen, prefixLen_head_gt by done.
  cbn [Nat.eqb length nth]. by rewrite (proj2 (Z.ltb_lt _ _) Hlt).
Qed.

Lemma scan_after l t :
  l ≠ [] → Forall (λ k, (frame k ≤ t)%Z) l →
  scan l t = (length l - 1, length l - 1).
Proof.
  intros Hne Hall. rewrite scan_prefixLen, prefixLen_all_le by done.
  rewrite Nat.eqb_refl. destruct l; [done|]. simpl. by rewrite Nat.sub_0_r.
Qed.

Lemma all_lt_last kfs t lastk :
  last (sortFrames kfs) = Some lastk → (frame lastk < t)%Z →
  Forall (λ k, (frame k < t)%Z) (sortFrames kfs).
Proof.
  intros Hlast Hlt.
  eapply Forall_impl; [apply (sorted_le_last _ lastk); [|done]|].
  - apply sortFrames_sorted.
  - unfold frameLe. intros; simpl in *; lia.
Qed.

Lemma nth_last k0 l z :
  last (k0 :: l) = Some z → nth (length (k0 :: l) - 1) (k0 :: l) k0 = z.
Proof.
  intros Hlast. rewrite nth_lookup. rewrite last_lookup in Hlast.
  replace (length (k0 :: l) - 1) with (Init.Nat.pred (length (k0 :: l)))
    by (simpl; lia).
  by rewrite Hlast.
Qed.

Lemma interpolate_after kfs t lastk :
  last (sortFrames kfs) = Some lastk → (frame lastk < t)%Z →
  interpolate kfs t = withFrame lastk t.
Proof.
  intros Hlast Hlt. unfold interpolate.
  pose proof (all_lt_last _ _ _ Hlast Hlt) as Hall.
  destruct (sortFrames kfs) as [|k0 rest] eqn:Hs; [done|].
  rewrite scan_after; [|done|by eapply Forall_impl; [exact Hall|]; intros; simpl in *; lia].
  rewrite Nat.eqb_refl. by rewrite (nth_last _ _ lastk).
Qed.

Lemma precalcFrame_after kfs toInterpolate t lastk :
  last (sortFrames kfs) = Some lastk → (frame lastk < t)%Z →
  precalcFrame (sortFrames kfs) toInterpolate t = withFrame lastk t.
Proof.
  intros Hlast Hlt. unfold precalcFrame. rewrite find_atFrame.
  pose proof (all_lt_last _ _ _ Hlast Hlt) as Hall.
  destruct (sortFrames kfs) as [|k0 rest] eqn:Hs; [done|].
  replace (atFrame t (k0 :: rest)) with (@nil (Frame N)).
  2:{ symmetry. destruct (atFrame t (k0 :: rest)) as [|x xs] eqn:Hx; [done|].
      assert (x ∈ atFrame t (k0 :: rest)) as [Hin Hfx]%atFrame_elem_of
        by (rewrite Hx; left).
      rewrite Forall_forall in Hall. specialize (Hall x Hin).
      simpl in Hall. lia. }
  simpl head.
  rewrite scan_after; [|done|by eapply Forall_impl; [exact Hall|]; intros; simpl in *; lia].
  rewrite (nth_last _ _ lastk) by done.
  rewrite (proj2 (Z.ltb_ge _ _)) by lia.
  by rewrite (proj2 (Z.ltb_lt _ _) Hlt).
Qed.

(** C4 (boundary clamp).  For a keyframe list whose sorted array starts
    with [first] and ends with [lastk] (so the list is not empty), [first]
    has the smallest and [lastk] the largest frame; a target before
    [first] resolves to the values of [first] and a target after [lastk]
    to the values of [lastk], each with the [frame] field rewritten to the
    target.  This holds of the lazy resolver and of the entry the eager
    table computes for the target. *)
Theorem boundary_clamp kfs toInterpolate t first lastk :
  head (sortFrames kfs) = Some first →
  last (sortFrames kfs) = Some lastk →
  (∀ k, k ∈ kfs → (frame first ≤ frame k ≤ frame lastk)%Z)
  ∧ ((t < frame first)%Z →
       interpolate kfs t = mkFrame t (props first)
       ∧ precalcFrame (sortFrames kfs) toInterpolate t = mkFrame t (props first))
  ∧ ((frame lastk < t)%Z →
       interpolate kfs t = mkFrame t (props lastk)
       ∧ precalcFrame (sortFrames kfs) toInterpolate t = mkFrame t (props lastk)).
Proof.
  intros Hhd Hlast. split; [|split].
  - intros k Hk%elem_of_sortFrames.
    pose proof (sortFrames_sorted kfs) as Hsorted.
    pose proof (sorted_le_last _ _ Hsorted Hlast) as Hmax.
    rewrite Forall_forall in Hmax. specialize (Hmax k Hk).
    destruct (sortFrames kfs) as [|k0 rest]; [done|].
    injection Hhd as ->.
    pose proof (sorted_head_le _ _ Hsorted) as Hmin.
    rewrite Forall_forall in Hmin. specialize (Hmin k Hk).
    unfold frameLe in *. lia.
  - intros Hlt. split.
    + by apply interpolate_before.
    + by apply precalcFrame_before.
  - intros Hlt. split.
    + by apply interpolate_after.
    + by apply precalcFrame_after.
Qed.

End ClampProps.

Lemma boundary_clamp_witness :
  (interpolate unsortedFrames 2 = mkFrame 2 {[ "x" := VNum (ZtoQc 1) ]}
   ∧ precalcFrame (sortFrames unsortedFrames) ∅ 2
     = mkFrame 2 {[ "x" := VNum (ZtoQc 1) ]})
  ∧ (interpolate unsortedFrames 9 = mkFrame 9 {[ "x" := VNum (ZtoQc 80) ]}
     ∧ precalcFrame (sortFrames unsortedFrames) ∅ 9
       = mkFrame 9 {[ "x" := VNum (ZtoQc 80) ]}).
Proof.
  pose proof (boundary_clamp unsortedFrames ∅ 2 (kf_x 4 1) (kf_x 8 80)
                eq_refl eq_refl) as (_ & Hbefore & _).
  pose proof (boundary_clamp unsortedFrames ∅ 9 (kf_x 4 1) (kf_x 8 80)
                eq_refl eq_refl) as (_ & _ & Hafter).
  split; [apply Hbefore | apply Hafter]; reflexivity.
Defined.

Section ModeProps.
Context {N : Type} `{JsNumber N}.
Implicit Types (k : Frame N) (l kfs : list (Frame N)).

Lemma head_last_atFrame_props t kfs first lastk :
  (∀ a b, a ∈ kfs → b ∈ kfs → frame a = t → frame b = t → props a = props b) →
  head (atFrame t (sortFrames kfs)) = Some first →
  last (atFrame t (sortFrames kfs)) = Some lastk →
  first = withFrame lastk t.
Proof.
  intros Hagree Hhd Hlast.
  assert (first ∈ atFrame t (sortFrames kfs)) as [Hf1 Hf2]%atFrame_elem_of.
  { destruct (atFrame t (sortFrames kfs)); [done|].
    injection Hhd as ->. left. }
  assert (lastk ∈ atFrame t (sortFrames kfs)) as [Hl1 Hl2]%atFrame_elem_of.
  { apply last_Some in Hlast as [l' ->]. apply elem_of_app. right. left. }
  apply (proj1 (elem_of_sortFrames _ _)) in Hf1.
  apply (proj1 (elem_of_sortFrames _ _)) in Hl1.
  destruct first as [ff fp]. unfold withFrame. simpl in *. subst ff.
  f_equal. by apply (Hagree (mkFrame t fp) lastk).
Qed.

Lemma last_atFrame_elem_of t kfs lastk :
  last (atFrame t (sortFrames kfs)) = Some lastk →
  lastk ∈ kfs ∧ frame lastk = t.
Proof.
  intros Hlast.
  assert (lastk ∈ atFrame t (sortFrames kfs)) as [Hin Hfr]%atFrame_elem_of.
  { apply last_Some in Hlast as [l' ->]. apply elem_of_app. right. left. }
  split; [|done]. by apply (proj1 (elem_of_sortFrames _ _)) in Hin.
Qed.

(** The entry of the eager table for frame [t] is the state the lazy
    resolver returns, when the keyframes on frame [t] agree and the
    interpolation from them gives back their numbers. *)
Lemma precalcFrame_interpolate kfs t :
  (∀ a b, a ∈ kfs → b ∈ kfs → frame a = t → frame b = t → props a = props b) →
  exactAtFrame t kfs →
  precalcFrame (sortFrames kfs) (propsToInterpolate (sortFrames kfs)) t
  = interpolate kfs t.
Proof.
  intros Hagree Hexact.
  destruct (atFrame t (sortFrames kfs)) as [|x xs] eqn:Hat.
  - by apply precalcFrame_no_keyframe.
  - destruct (last (atFrame t (sortFrames kfs))) as [lastk|] eqn:Hlast.
    2:{ rewrite Hat in Hlast. by apply last_None in Hlast. }
    assert (head (atFrame t (sortFrames kfs)) = Some x) as Hhd
      by (by rewrite Hat).
    destruct (last_atFrame_elem_of _ _ _ Hlast) as [Hin Hfr].
    rewrite (precalcFrame_at_keyframe _ _ _ x Hhd).
    rewrite (interpolate_at_keyframe _ _ lastk Hlast).
    + by apply (head_last_atFrame_props t kfs).
    + intros n Hn Hlt. by apply (Hexact lastk n).
Qed.

(** C1 (mode equivalence), amended.  For a non-audio element and a frame
    [f] in [[0, duration]], when the keyframes of the element that lie on
    frame [f] carry the same property values, and the interpolation from a
    keyframe on frame [f] towards a later keyframe gives back its numbers
    ([v1 + (v2 - v1) * ratio = v1] at the ratio of frame [f]), the
    exact-frame lookup in the table built by the eager precomputation and
    the lazy resolver over the original keyframe list yield the same
    property values; when the element has a keyframe the two states are
    the same state.  This holds in every arithmetic, binary64 included. *)
Theorem mode_equivalence (e : MovieElement N) (d f : Z) :
  isAudio (type e) = false →
  (0 ≤ f ≤ d)%Z →
  (∀ a b, a ∈ frames e → b ∈ frames e →
          frame a = f → frame b = f → props a = props b) →
  exactAtFrame f (frames e) →
  from_option props ∅ (updateFrameState (precalcElement d e) f)
    = props (interpolate (frames e) f)
  ∧ (frames e ≠ [] →
     updateFrameState (precalcElement d e) f
       = Some (interpolate (frames e) f)).
Proof.
  intros Haudio Hf Hagree Hexact.
  destruct (sortFrames (frames e)) as [|k0 rest] eqn:Hs.
  - apply sortFrames_nil_inv in Hs.
    unfold updateFrameState, precalcElement. rewrite Haudio, Hs. simpl.
    rewrite Haudio, Hs. by split.
  - assert (updateFrameState (precalcElement d e) f
            = Some (interpolate (frames e) f)) as Heq.
    { unfold updateFrameState, precalcElement. rewrite Haudio, Hs.
      cbn [type frames]. rewrite Haudio, <- Hs.
      rewrite findState_fullFrames by done.
      f_equal. by apply precalcFrame_interpolate. }
    rewrite Heq. by split.
Qed.

(** C2 (exact match), amended.  When exactly one keyframe [kf] of the
    element lies on frame [k], the entry of the eager table for [k], and
    the exact-frame lookup in the table when [k] is in [[0, duration]],
    return [kf] itself: its property values unchanged and the [frame]
    field equal to [k].  So does the lazy resolver, when the interpolation
    from [kf] towards every later keyframe gives back the numbers of [kf]
    ([v1 + (v2 - v1) * ratio = v1] at the ratio of frame [k]).  This holds
    in every arithmetic, binary64 included. *)
Theorem exact_match_unique kfs kf (k d : Z) :
  atFrame k kfs = [kf] →
  frame kf = k
  ∧ ((∀ n, n ∈ kfs → (k < frame n)%Z → startsExactly kf n) →
     interpolate kfs k = kf)
  ∧ precalcFrame (sortFrames kfs) (propsToInterpolate (sortFrames kfs)) k = kf
  ∧ ((0 ≤ k ≤ d)%Z → findState (fullFrames d (sortFrames kfs)) k = Some kf).
Proof.
  intros Hat. rewrite <- (atFrame_sortFrames k kfs) in Hat.
  assert (frame kf = k) as Hk.
  { apply (last_atFrame_frame k (sortFrames kfs)). by rewrite Hat. }
  assert (precalcFrame (sortFrames kfs)
            (propsToInterpolate (sortFrames kfs)) k = kf) as Heager.
  { apply precalcFrame_at_keyframe. by rewrite Hat. }
  split; [done|]. split; [|split; [done|]].
  - intros Hexact.
    rewrite (interpolate_at_keyframe kfs k kf); [|by rewrite Hat|done].
    rewrite <- Hk. apply withFrame_same.
  - intros Hd. by rewrite findState_fullFrames, Heager.
Qed.

(** C3 (duplicate frames), amended.  When the sorted keyframes on frame
    [t] start with [first] and end with [lastk], the eager table holds
    [first] for frame [t]; the lazy resolver returns the values of
    [lastk], when the interpolation from [lastk] towards every later
    keyframe gives back the numbers of [lastk]; the sort keeps the
    keyframes on frame [t] in the order of the original list.  This holds
    in every arithmetic, binary64 included. *)
Theorem duplicate_frames_first_last kfs (t d : Z) first lastk :
  head (atFrame t (sortFrames kfs)) = Some first →
  last (atFrame t (sortFrames kfs)) = Some lastk →
  atFrame t (sortFrames kfs) = atFrame t kfs
  ∧ precalcFrame (sortFrames kfs) (propsToInterpolate (sortFrames kfs)) t
    = first
  ∧ ((0 ≤ t ≤ d)%Z → findState (fullFrames d (sortFrames kfs)) t = Some first)
  ∧ ((∀ n, n ∈ kfs → (t < frame n)%Z → startsExactly lastk n) →
     interpolate kfs t = mkFrame t (props lastk)).
Proof.
  intros Hhd Hlast.
  assert (precalcFrame (sortFrames kfs)
            (propsToInterpolate (sortFrames kfs)) t = first) as Heager
    by (by apply precalcFrame_at_keyframe).
  split; [apply atFrame_sortFrames|]. split; [done|]. split.
  - intros Hd. by rewrite findState_fullFrames, Heager.
  - intros Hexact. by apply interpolate_at_keyframe.
Qed.

End ModeProps.

Lemma ZtoQc_1_ne_2 : ZtoQc 1 ≠ ZtoQc 2.
Proof. intros Heq. apply (f_equal this) in Heq. discriminate Heq. Qed.

Lemma far_apart_ne_nan : PrimFloat.opp float_1e308 ≠ nan.
Proof.
  intros Heq. apply (f_equal PrimFloat.is_nan) in Heq.
  vm_compute in Heq. discriminate Heq.
Qed.

(** The interpolation from frame 0 of the binary64 keyframes
    [{frame: 0, x: 0}], [{frame: 10, x: 100}] gives back [x = 0]. *)
Lemma sample_exact_from_0 (n : Frame float) :
  n ∈ sample_0_10 → (0 < frame n)%Z → startsExactly (kf_x 0 0) n.
Proof.
  intros Hn Hlt. unfold sample_0_10 in Hn.
  apply elem_of_cons in Hn as [->|Hn]; [simpl in Hlt; lia|].
  apply elem_of_cons in Hn as [->|Hn]; [|by apply not_elem_of_nil in Hn].
  apply startsExactly_kf_x. vm_compute. reflexivity.
Qed.

(** The same keyframes meet the binary64 side condition: the ratio at
    frame 0 is zero, the difference [100 - 0] is finite and [0] is not the
    negative zero. *)
Example sample_exact_by_finiteness :
  startsExactly (kf_x (N:=float) 0 0) (kf_x 10 100).
Proof.
  apply startsExactly_binary64; [vm_compute; reflexivity|].
  intros key a b Ha Hb. cbn [kf_x props] in Ha, Hb.
  apply lookup_singleton_Some in Ha as [_ [= <-]].
  apply lookup_singleton_Some in Hb as [_ [= <-]].
  split; [vm_compute; reflexivity|].
  intros Heq. apply (f_equal Prim2SF) in Heq. vm_compute in Heq.
  discriminate Heq.
Qed.

Lemma mode_equivalence_witness :
  updateFrameState (precalcElement 10 (sampleElement (N:=float))) 0
  = Some (interpolate (frames (sampleElement (N:=float))) 0).
Proof.
  apply (mode_equivalence (N:=float) sampleElement 10 0);
    [reflexivity | lia | | | discriminate].
  - intros a b Ha Hb Hfa Hfb. simpl in Ha, Hb.
    apply elem_of_cons in Ha as [->|Ha].
    + apply elem_of_cons in Hb as [->|Hb]; [reflexivity|].
      apply elem_of_cons in Hb as [->|Hb]; [discriminate Hfb|].
      by apply not_elem_of_nil in Hb.
    + apply elem_of_cons in Ha as [->|Ha]; [discriminate Hfa|].
      by apply not_elem_of_nil in Ha.
  - intros p n Hp Hn Hfp Hlt. simpl in Hp, Hn.
    apply elem_of_cons in Hp as [->|Hp].
    + by apply sample_exact_from_0.
    + apply elem_of_cons in Hp as [->|Hp]; [discriminate Hfp|].
      by apply not_elem_of_nil in Hp.
Defined.

(** C1, as stated, fails on two inputs.  On an element with two keyframes
    on frame 0 the eager table holds the first, [x = 1], and the lazy
    resolver returns the last, [x = 2].  On the binary64 keyframes
    [{frame: 0, x: -1e308}], [{frame: 10, x: 1e308}], whose frames differ,
    the eager table holds [x = -1e308] for frame 0 and the lazy resolver
    returns [x = NaN], because [v2 - v1] overflows. *)
Lemma mode_equivalence_counterexample :
  (isAudio (type dupElement) = false
   ∧ updateFrameState (precalcElement (duration dupMovie) dupElement) 0
     = Some (mkFrame 0 {[ "x" := VNum (ZtoQc 1) ]})
   ∧ getElementState dupMovie (id dupElement) 0
     = Some (mkFrame 0 {[ "x" := VNum (ZtoQc 2) ]})
   ∧ ZtoQc 1 ≠ ZtoQc 2)
  ∧ (isAudio (type farApartElement) = false
     ∧ frame <$> frames farApartElement = [0%Z; 10%Z]
     ∧ from_option props ∅
         (updateFrameState (precalcElement 10 farApartElement) 0) !! "x"
       = Some (VNum (PrimFloat.opp float_1e308))
     ∧ props (interpolate (frames farApartElement) 0) !! "x"
       = Some (VNum nan)
     ∧ PrimFloat.opp float_1e308 ≠ nan).
Proof.
  split.
  - split; [reflexivity|]. split; [reflexivity|]. split; [reflexivity|].
    exact ZtoQc_1_ne_2.
  - split; [reflexivity|]. split; [reflexivity|].
    split; [vm_compute; reflexivity|]. split; [vm_compute; reflexivity|].
    exact far_apart_ne_nan.
Qed.

Lemma exact_match_unique_witness :
  interpolate (N:=float) sample_0_10 0 = kf_x 0 0
  ∧ findState (fullFrames 10 (sortFrames (N:=float) sample_0_10)) 0
    = Some (kf_x 0 0).
Proof.
  assert (atFrame 0 (sample_0_10 (N:=float)) = [kf_x 0 0]) as Hat
    by (vm_compute; reflexivity).
  pose proof (exact_match_unique (N:=float) sample_0_10 (kf_x 0 0) 0 10 Hat)
    as (_ & Hlazy & _ & Heager).
  split; [exact (Hlazy sample_exact_from_0) | apply Heager; lia].
Defined.

(** C2, as stated, fails on two inputs.  For the keyframe
    [{frame: 0, x: 1}] of an element that has a second keyframe on frame 0
    the lazy resolver returns the values of the second one.  For the only
    keyframe on frame 0 of the binary64 keyframes [{frame: 0, x: -1e308}],
    [{frame: 10, x: 1e308}] the lazy resolver returns [x = NaN]. *)
Lemma exact_match_counterexample :
  (kf_x 0 1 ∈ dupFrames
   ∧ frame (kf_x (N:=Qc) 0 1) = 0%Z
   ∧ props (kf_x (N:=Qc) 0 1) !! "x" = Some (VNum (ZtoQc 1))
   ∧ props (interpolate dupFrames 0) !! "x" = Some (VNum (ZtoQc 2))
   ∧ frame (interpolate dupFrames 0) = 0%Z
   ∧ ZtoQc 1 ≠ ZtoQc 2)
  ∧ (atFrame 0 farApartFrames
     = [mkFrame 0 {[ "x" := VNum (PrimFloat.opp float_1e308) ]}]
     ∧ props (interpolate farApartFrames 0) !! "x" = Some (VNum nan)
     ∧ PrimFloat.opp float_1e308 ≠ nan).
Proof.
  split.
  - split; [left|]. repeat (split; [reflexivity|]). exact ZtoQc_1_ne_2.
  - split; [vm_compute; reflexivity|]. split; [vm_compute; reflexivity|].
    exact far_apart_ne_nan.
Qed.

Lemma duplicate_frames_witness :
  precalcFrame (sortFrames unsortedFloatFrames)
    (propsToInterpolate (sortFrames unsortedFloatFrames)) 4 = kf_x 4 1
  ∧ findState (fullFrames 10 (sortFrames unsortedFloatFrames)) 4
    = Some (kf_x 4 1)
  ∧ interpolate unsortedFloatFrames 4 = kf_x 4 2.
Proof.
  assert (head (atFrame 4 (sortFrames unsortedFloatFrames))
          = Some (kf_x 4 1)) as Hhd by (vm_compute; reflexivity).
  assert (last (atFrame 4 (sortFrames unsortedFloatFrames))
          = Some (kf_x 4 2)) as Hlast by (vm_compute; reflexivity).
  assert (∀ n : Frame float, n ∈ unsortedFloatFrames → (4 < frame n)%Z →
                             startsExactly (kf_x 4 2) n) as Hexact.
  { intros n Hn Hlt. unfold unsortedFloatFrames in Hn.
    apply elem_of_cons in Hn as [->|Hn].
    - apply startsExactly_kf_x. vm_compute. reflexivity.
    - apply elem_of_cons in Hn as [->|Hn]; [simpl in Hlt; lia|].
      apply elem_of_cons in Hn as [->|Hn]; [simpl in Hlt; lia|].
      by apply not_elem_of_nil in Hn. }
  pose proof (duplicate_frames_first_last (N:=float) unsortedFloatFrames 4 10
                (kf_x 4 1) (kf_x 4 2) Hhd Hlast)
    as (_ & Heager & Hfind & Hlazy).
  split; [exact Heager|]. split; [apply Hfind; lia | exact (Hlazy Hexact)].
Defined.

(** C3, as stated, fails in the lazy mode: of two keyframes on frame 0, in
    this order in the sorted array, the lazy resolver returns the second.
    And the lazy resolver returns the values of the last keyframe on the
    frame only when the interpolation gives them back: on the binary64
    keyframes [{frame: 0, x: 1}], [{frame: 0, x: -1e308}],
    [{frame: 10, x: 1e308}] it returns [x = NaN] for frame 0. *)
Lemma duplicate_frames_counterexample :
  (atFrame 0 (sortFrames dupFrames) = [kf_x 0 1; kf_x 0 2]
   ∧ props (kf_x (N:=Qc) 0 1) !! "x" = Some (VNum (ZtoQc 1))
   ∧ props (interpolate dupFrames 0) !! "x" = Some (VNum (ZtoQc 2))
   ∧ findState (fullFrames 0 (sortFrames dupFrames)) 0 = Some (kf_x 0 1)
   ∧ ZtoQc 1 ≠ ZtoQc 2)
  ∧ (atFrame 0 (sortFrames dupFarApartFrames)
     = [mkFrame 0 {[ "x" := VNum 1%float ]};
        mkFrame 0 {[ "x" := VNum (PrimFloat.opp float_1e308) ]}]
     ∧ props (interpolate dupFarApartFrames 0) !! "x" = Some (VNum nan)
     ∧ PrimFloat.opp float_1e308 ≠ nan).
Proof.
  split.
  - repeat (split; [reflexivity|]). exact ZtoQc_1_ne_2.
  - split; [vm_compute; reflexivity|]. split; [vm_compute; reflexivity|].
    exact far_apart_ne_nan.
Qed.

(** C5 (linear interpolation).  On the keyframes [{frame: 0, x: 0}] and
    [{frame: 10, x: 100}], resolving at frame 5 yields [x = 50] and at
    frame 3 yields [x = 30]: in binary64 arithmetic, where the results are
    the floats 50 and 30 exactly, and in exact arithmetic. *)
Theorem linear_interpolation_sample :
  props (interpolate (N:=float) sample_0_10 5) !! "x" = Some (VNum 50%float)
  ∧ props (interpolate (N:=float) sample_0_10 3) !! "x" = Some (VNum 30%float)
  ∧ props (interpolate (N:=Qc) sample_0_10 5) !! "x" = Some (VNum (ZtoQc 50))
  ∧ props (interpolate (N:=Qc) sample_0_10 3) !! "x" = Some (VNum (ZtoQc 30)).
Proof.
  split; [|split; [|split]].
  - vm_compute. reflexivity.
  - vm_compute. reflexivity.
  - vm_compute. reflexivity.
  - vm_compute. reflexivity.
Qed.

(** The lazy resolver reaches a keyframe that is not the last one through
    [v1 + (v2 - v1) * 0], which in binary64 is [NaN] when [v2 - v1]
    overflows, while the eager table holds the keyframe itself. *)
Example lazy_exact_match_binary64_overflow :
  props (interpolate farApartFrames 0) !! "x" = Some (VNum nan)
  ∧ props (precalcFrame (sortFrames farApartFrames)
             (propsToInterpolate (sortFrames farApartFrames)) 0) !! "x"
    = Some (VNum (PrimFloat.opp float_1e308)).
Proof. split; vm_compute; reflexivity. Qed.

Section DenseProps.
Context {N : Type} `{JsNumber N}.

(** C9 (idempotent precompute).  Running [_precalculateFrames] on a movie
    whose frame lists were already replaced by the dense tables leaves
    the movie as it is. *)
Theorem precalculateFrames_idempotent (m : Movie N) :
  _precalculateFrames (_precalculateFrames m) = _precalculateFrames m.
Proof.
  unfold _precalculateFrames. cbn [elements duration loop fps].
  f_equal. rewrite <- list_fmap_compose.
  apply list_fmap_ext. intros i e _. apply precalcElement_idemp.
Qed.

(** C10 (dense table).  After the eager precomputation of a non-audio
    element with a keyframe, for a duration [d ≥ 0], the frame list has
    [d + 1] entries, the entry at index [i] carries frame [i], and the
    exact-frame lookup of [updateFrame] finds it, for every [i] in
    [[0, d]]; an audio element and an element without keyframes are left
    as they are. *)
Theorem dense_table (d : Z) (e : MovieElement N) :
  (isAudio (type e) = false → frames e ≠ [] → (0 ≤ d)%Z →
     Z.of_nat (length (frames (precalcElement d e))) = (d + 1)%Z
     ∧ ∀ i, (0 ≤ i ≤ d)%Z →
         ∃ s, frames (precalcElement d e) !! Z.to_nat i = Some s
              ∧ frame s = i
              ∧ findState (frames (precalcElement d e)) i = Some s)
  ∧ (isAudio (type e) = true ∨ frames e = [] → precalcElement d e = e).
Proof.
  split.
  - intros Haudio Hne Hd. unfold precalcElement. rewrite Haudio.
    destruct (sortFrames (frames e)) as [|k0 rest] eqn:Hs.
    { by apply sortFrames_nil_inv in Hs. }
    cbn [frames]. split.
    + rewrite length_fullFrames. lia.
    + intros i Hi. eexists. split; [by apply lookup_fullFrames|]. split.
      * apply precalcFrame_frame.
      * by apply findState_fullFrames.
  - intros [Haudio|Hempty]; unfold precalcElement.
    + by rewrite Haudio.
    + rewrite Hempty. simpl. by destruct (isAudio (type e)).
Qed.

End DenseProps.

Lemma dense_table_witness :
  Z.of_nat (length (frames (precalcElement 10 (sampleElement (N:=Qc))))) = 11%Z
  ∧ precalcElement 10 audioElement = audioElement
  ∧ precalcElement 10 emptyElement = emptyElement.
Proof.
  pose proof (dense_table (N:=Qc) 10 sampleElement) as [Hdense _].
  pose proof (dense_table (N:=Qc) 10 audioElement) as [_ Haudio].
  pose proof (dense_table (N:=Qc) 10 emptyElement) as [_ Hempty].
  split; [|split].
  - apply Hdense; [reflexivity | discriminate | lia].
  - apply Haudio. left. reflexivity.
  - apply Hempty. right. reflexivity.
Defined.

(** ** The remainder of the clock *)








(** ** Properties of the playback clock *)

Section ClockFacts.
Context {N : Type}.
Implicit Types (m : Movie N) (r : MovieRenderer).

Lemma update_past_loop m r dt c :
  loop m = true → advance m r dt = Some c →
  (ZtoQc (duration m) < c)%Qc →
  currentFrame (update m r dt) = jsRem c (ZtoQc (duration m)).
Proof.
  intros Hloop Hadv Hlt%Qcltb_lt. unfold update.
  cbn [setCurrentFrame currentFrame renderFrame].
  by rewrite Hadv, Hlt, Hloop.
Qed.

Lemma update_past_clamp m r dt c :
  loop m = false → advance m r dt = Some c →
  (ZtoQc (duration m) < c)%Qc →
  currentFrame (update m r dt) = Some (ZtoQc (duration m))
  ∧ isPlaying (update m r dt) = false
  ∧ onTicker (update m r dt) = false.
Proof.
  intros Hloop Hadv Hlt%Qcltb_lt. unfold update.
  cbn [setCurrentFrame currentFrame renderFrame].
  by rewrite Hadv, Hlt, Hloop.
Qed.

(** Without looping, no call of [update] leaves the position past the
    duration. *)
Lemma update_noloop_le m r dt p :
  loop m = false → currentFrame r = Some p →
  ∃ q, currentFrame (update m r dt) = Some q
       ∧ (q <= ZtoQc (duration m))%Qc.
Proof.
  intros Hloop Hp. unfold update, advance.
  cbn [setCurrentFrame currentFrame renderFrame]. rewrite Hp, Hloop.
  cbn [fmap option_fmap option_map].
  destruct (Qcltb _ _) eqn:Hlt.
  - eexists. split; [reflexivity|]. apply Qcle_refl.
  - eexists. split; [reflexivity|]. by apply Qcltb_ge.
Qed.

Lemma tick_off_ticker m r dt : onTicker r = false → tick m r dt = r.
Proof. intros Hoff. unfold tick. by rewrite Hoff. Qed.

End ClockFacts.




(** C7 (clamp and stop).  Without [loop], a tick that advances the position
    past the duration sets the position to the duration, leaves playback
    paused and takes [update] off the ticker; a later tick changes nothing,
    and a later call of [update] leaves the position at most at the
    duration. *)
Theorem clamp_and_stop {N : Type} (m : Movie N) (r : MovieRenderer) (dt c : Qc) :
  loop m = false →
  advance m r dt = Some c →
  (ZtoQc (duration m) < c)%Qc →
  currentFrame (update m r dt) = Some (ZtoQc (duration m))
  ∧ isPlaying (update m r dt) = false
  ∧ onTicker (update m r dt) = false
  ∧ (∀ dt', tick m (update m r dt) dt' = update m r dt)
  ∧ (∀ dt', ∃ q, currentFrame (update m (update m r dt) dt') = Some q
                 ∧ (q <= ZtoQc (duration m))%Qc).
Proof.
  intros Hloop Hadv Hlt.
  destruct (update_past_clamp m r dt c Hloop Hadv Hlt) as (Hpos & Hplay & Hoff).
  repeat (split; [done|]). split.
  - intros dt'. by apply tick_off_ticker.
  - intros dt'. by eapply update_noloop_le.
Qed.

Lemma clamp_and_stop_witness :
  currentFrame (update stopMovie (rendererAt 95) (ZtoQc 10)) = Some (ZtoQc 100)
  ∧ isPlaying (update stopMovie (rendererAt 95) (ZtoQc 10)) = false
  ∧ tick stopMovie (update stopMovie (rendererAt 95) (ZtoQc 10)) (ZtoQc 10)
    = update stopMovie (rendererAt 95) (ZtoQc 10).
Proof.
  pose proof (clamp_and_stop stopMovie (rendererAt 95) (ZtoQc 10) (ZtoQc 105)
                eq_refl eq_refl eq_refl) as (Hpos & Hplay & _ & Htick & _).
  split; [exact Hpos|]. split; [exact Hplay | apply Htick].
Defined.

(** ** Properties of the audio window *)

Section AudioFacts.
Context {N : Type}.
Implicit Types (m : Movie N) (el : MovieElement N)
  (emap : gmap string HTMLAudioElement).

Lemma renderElement_lookup_ne m playing f emap el key :
  id el ≠ key → renderElement m playing f emap el !! key = emap !! key.
Proof.
  intros Hne. unfold renderElement.
  destruct (isAudio (type el)); [|done].
  destruct (emap !! id el); [|done]. by rewrite lookup_insert_ne.
Qed.

Lemma foldl_renderElement_other m playing f els emap key :
  key ∉ id <$> els →
  foldl (renderElement m playing f) emap els !! key = emap !! key.
Proof.
  revert emap. induction els as [|y els IH]; intros emap Hnin; [done|].
  cbn [foldl]. rewrite fmap_cons, not_elem_of_cons in Hnin.
  destruct Hnin as [Hne Hnin].
  rewrite IH by done. by apply renderElement_lookup_ne.
Qed.

(** The loop of [renderFrame] leaves in the map, for an audio element
    whose id no other element has, the item the audio branch computes. *)
Lemma foldl_renderElement_audio m playing f els emap el item :
  NoDup (id <$> els) → el ∈ els → isAudio (type el) = true →
  emap !! id el = Some item →
  foldl (renderElement m playing f) emap els !! id el
  = Some (renderAudio m playing f el item).
Proof.
  revert emap. induction els as [|y els IH]; intros emap Hnd Hin Haudio Hitem.
  - by apply not_elem_of_nil in Hin.
  - rewrite fmap_cons in Hnd. apply NoDup_cons in Hnd as [Hy Hnd].
    cbn [foldl]. apply elem_of_cons in Hin as [->|Hin].
    + rewrite foldl_renderElement_other by done.
      unfold renderElement. rewrite Haudio, Hitem.
      by rewrite lookup_insert_eq.
    + apply IH; [done..|].
      rewrite renderElement_lookup_ne; [done|].
      intros Heq. apply Hy. rewrite Heq.
      apply list_elem_of_fmap. by exists el.
Qed.

Lemma renderAudio_outside m el item f :
  startFrame el = Some 30%Z → endFrame el = Some 60%Z →
  (f < 30 ∨ 60 ≤ f)%Z →
  renderAudio m true (Some f) el item
  = if paused item then item else mkAudio true 0%Qc.
Proof.
  intros Hs He Hf. unfold renderAudio. rewrite Hs, He. simpl default.
  replace ((30 <=? f)%Z && (f <? 60)%Z) with false.
  - by destruct (paused item).
  - symmetry. apply andb_false_iff.
    rewrite Z.leb_gt, Z.ltb_ge. lia.
Qed.

Lemma renderAudio_inside m el item f :
  startFrame el = Some 30%Z → endFrame el = Some 60%Z →
  (30 ≤ f < 60)%Z →
  paused (renderAudio m true (Some f) el item) = false
  ∧ (paused item = true →
     renderAudio m true (Some f) el item
     = mkAudio false (ZtoQc (f - 30) / fps m)%Qc).
Proof.
  intros Hs He Hf. unfold renderAudio. rewrite Hs, He. simpl default.
  replace ((30 <=? f)%Z && (f <? 60)%Z) with true.
  - destruct (paused item) eqn:Hp; simpl.
    + done.
    + split; [|done]. by destruct (Qcltb _ _).
  - symmetry. apply andb_true_iff.
    rewrite Z.leb_le, Z.ltb_lt. lia.
Qed.

End AudioFacts.

(** C8 (audio window gating).  For an audio element with [startFrame = 30]
    and [endFrame = 60] whose media is registered with the renderer, and a
    render while playing: at frames 20 and 70 the media is left paused,
    with its offset at zero when it had been playing (and untouched when it
    had not); at frame 45 the media is left playing, and when this render
    starts it the offset is [(45 - 30) / fps] seconds. *)
Theorem audio_window_gating {N : Type} (m : Movie N) (r : MovieRenderer)
    (el : MovieElement N) (item : HTMLAudioElement) :
  NoDup (id <$> elements m) →
  el ∈ elements m →
  type el = audio →
  startFrame el = Some 30%Z →
  endFrame el = Some 60%Z →
  isPlaying r = true →
  elementMap r !! id el = Some item →
  fps m ≠ 0%Qc →
  (∀ f, f = 20%Z ∨ f = 70%Z →
     ∃ item', elementMap (renderFrame m r (Some f)) !! id el = Some item'
       ∧ paused item' = true
       ∧ (paused item = false → currentTime item' = 0%Qc)
       ∧ (paused item = true → item' = item))
  ∧ ∃ item', elementMap (renderFrame m r (Some 45%Z)) !! id el = Some item'
       ∧ paused item' = false
       ∧ (paused item = true →
          currentTime item' = (ZtoQc (45 - 30) / fps m)%Qc).
Proof.
  intros Hnd Hin Htype Hs He Hplay Hitem _.
  assert (isAudio (type el) = true) as Haudio by (by rewrite Htype).
  split.
  - intros f Hf. eexists. split.
    { unfold renderFrame. cbn [elementMap]. rewrite Hplay.
      by apply foldl_renderElement_audio. }
    rewrite (renderAudio_outside m el item f) by (done || lia).
    destruct (paused item) eqn:Hp; by repeat split.
  - eexists. split.
    { unfold renderFrame. cbn [elementMap]. rewrite Hplay.
      by apply foldl_renderElement_audio. }
    destruct (renderAudio_inside m el item 45 Hs He) as [Hpaused Hstart];
      [lia|].
    split; [done|]. intros Hp. by rewrite Hstart.
Qed.

Lemma audio_window_gating_witness :
  (∀ f, f = 20%Z ∨ f = 70%Z →
     ∃ item',
       elementMap (renderFrame audioMovie
                     (audioRenderer (mkAudio true 0%Qc)) (Some f))
         !! "bgm" = Some item'
       ∧ paused item' = true
       ∧ (true = false → currentTime item' = 0%Qc)
       ∧ (true = true → item' = mkAudio true 0%Qc))
  ∧ ∃ item',
      elementMap (renderFrame audioMovie
                    (audioRenderer (mkAudio true 0%Qc)) (Some 45%Z))
        !! "bgm" = Some item'
      ∧ paused item' = false
      ∧ (true = true →
         currentTime item' = (ZtoQc (45 - 30) / ZtoQc 30)%Qc).
Proof.
  apply (audio_window_gating audioMovie
           (audioRenderer (mkAudio true 0%Qc)) audioElement
           (mkAudio true 0%Qc)).
  - simpl. apply NoDup_singleton.
  - left.
  - reflexivity.
  - reflexivity.
  - reflexivity.
  - reflexivity.
  - reflexivity.
  - intros Heq. apply (f_equal this) in Heq. discriminate Heq.
Defined.

(** Three renders of the audio element, evaluated: a paused item is started at
    frame 45 with offset [15 / 30] seconds, and a playing item is stopped
    and rewound at frames 20 and 70. *)
Example audio_window_gating_runs :
  renderAudio audioMovie true (Some 45%Z) audioElement (mkAudio true 0%Qc)
  = mkAudio false (ZtoQc 15 / ZtoQc 30)%Qc
  ∧ renderAudio audioMovie true (Some 20%Z) audioElement
      (mkAudio false (ZtoQc 7)) = mkAudio true 0%Qc
  ∧ renderAudio audioMovie true (Some 70%Z) audioElement
      (mkAudio false (ZtoQc 7)) = mkAudio true 0%Qc.
Proof. repeat split; reflexivity. Qed.

(** * Further properties of the code *)

(** ** The resolvers between and around keyframes *)

Section ResolverProps.
Context {N : Type} `{JsNumber N}.
Implicit Types (k p n : Frame N) (l kfs : list (Frame N)).

(** X1.  Whatever branch the lazy resolver takes, the state it returns
    carries the target frame; so does every state [getElementState]
    returns. *)
Theorem interpolate_frame kfs (t : Z) :
  frame (interpolate kfs t) = t
  ∧ ∀ (m : Movie N) elementId s,
      getElementState m elementId t = Some s → frame s = t.
Proof.
  assert (∀ l, frame (interpolate l t) = t) as Hframe.
  { intros l. unfold interpolate.
    destruct (sortFrames l) as [|k0 rest]; [done|].
    destruct (scan (k0 :: rest) t) as [pi ni]. by repeat case_match. }
  split; [apply Hframe|].
  intros m elementId s. unfold getElementState.
  destruct (List.find _ (elements m)); [|done].
  intros [= <-]. apply Hframe.
Qed.

Lemma prefixLen_app l1 l2 t :
  Forall (λ k, (frame k ≤ t)%Z) l1 →
  prefixLen (l1 ++ l2) t = length l1 + prefixLen l2 t.
Proof.
  induction 1 as [|k l1 Hk _ IH]; [done|].
  cbn [app prefixLen length]. by rewrite (proj2 (Z.leb_le _ _) Hk), IH.
Qed.

Lemma scan_between l1 l2 p n t :
  StronglySorted frameLe (l1 ++ p :: n :: l2) →
  (frame p ≤ t < frame n)%Z →
  scan (l1 ++ p :: n :: l2) t = (length l1, S (length l1)).
Proof.
  intros Hsorted [Hp Hn]. rewrite scan_prefixLen.
  assert (prefixLen (l1 ++ p :: n :: l2) t = S (length l1)) as ->.
  { rewrite prefixLen_app.
    - cbn [prefixLen]. rewrite (proj2 (Z.leb_le _ _) Hp).
      rewrite (proj2 (Z.leb_gt _ _) Hn). lia.
    - apply Forall_forall. intros x Hx.
      assert (frameLe x p) as Hxp.
      { eapply StronglySorted_app_1_elem_of; [exact Hsorted|done|left]. }
      unfold frameLe in Hxp. lia. }
  rewrite length_app. cbn [length].
  by rewrite (proj2 (Nat.eqb_neq _ _)) by lia.
Qed.

Lemma nth_middle_next l1 l2 p n k0 :
  nth (length l1) (l1 ++ p :: n :: l2) k0 = p
  ∧ nth (S (length l1)) (l1 ++ p :: n :: l2) k0 = n.
Proof.
  rewrite !nth_lookup. split.
  - by rewrite list_lookup_middle.
  - rewrite (lookup_app_r l1) by lia.
    by replace (S (length l1) - length l1) with 1 by lia.
Qed.

(** The state the lazy resolver builds between two neighbours of the
    sorted array. *)
Lemma interpolate_between_merge kfs l1 l2 p n (t : Z) :
  sortFrames kfs = l1 ++ p :: n :: l2 →
  (frame p ≤ t < frame n)%Z →
  interpolate kfs t
  = mkFrame t (merge (mergeKey (ratioOf t p n)) (props p) (props n)).
Proof.
  intros Hs Ht. unfold interpolate.
  pose proof (sortFrames_sorted kfs) as Hsorted. rewrite Hs in *.
  destruct (l1 ++ p :: n :: l2) as [|k0 rest] eqn:Hl.
  { by destruct l1. }
  rewrite <- Hl in *. rewrite scan_between by done.
  destruct (nth_middle_next l1 l2 p n k0) as [-> ->].
  rewrite (proj2 (Nat.eqb_neq _ _)) by lia.
  rewrite (proj2 (Z.ltb_ge _ _)) by lia.
  by rewrite (proj2 (Z.ltb_ge _ _)) by lia.
Qed.

(** X2.  Between two neighbours [p] and [n] of the sorted keyframes (the
    target at or after [p] and before [n]), the lazy resolver computes
    every property from these two alone: a key that holds a number on both
    is interpolated at the ratio of the target between them; any other key
    keeps what [p] has, so a string or a boolean is held, a number facing
    a non-number is held, and a key that only [n] has is absent. *)
Theorem interpolate_between kfs l1 l2 p n (t : Z) (key : string) :
  sortFrames kfs = l1 ++ p :: n :: l2 →
  (frame p ≤ t < frame n)%Z →
  props (interpolate kfs t) !! key
  = match props p !! key, props n !! key with
    | Some (VNum a), Some (VNum b) => Some (VNum (lerp a b (ratioOf t p n)))
    | held, _ => held
    end.
Proof.
  intros Hs Ht. rewrite (interpolate_between_merge kfs l1 l2 p n) by done.
  cbn [props]. rewrite lookup_merge.
  destruct (props p !! key) as [[a|?|?]|], (props n !! key) as [[b'|?|?]|];
    done.
Qed.

Lemma dom_merge_mergeKey ratio (m1 m2 : gmap string (value N)) :
  dom (merge (mergeKey ratio) m1 m2) = dom m1.
Proof.
  apply set_eq. intros key. rewrite !elem_of_dom, lookup_merge.
  destruct (m1 !! key) as [[a|?|?]|], (m2 !! key) as [[b'|?|?]|]; simpl;
    split; intros [? ?]; try done; by eexists.
Qed.

Lemma dom_foldl_interpolateProp ratio p n keys :
  dom (foldl (interpolateProp ratio p n) (props p) keys) = dom (props p).
Proof.
  apply set_eq. intros key. rewrite !elem_of_dom.
  rewrite lookup_foldl_interpolateProp. unfold lerpAt.
  destruct (props p !! key) as [[a|?|?]|] eqn:Hp; try done.
  destruct (props n !! key) as [[b'|?|?]|]; try done.
  destruct (decide _); split; intros _; by eexists.
Qed.

(** X3.  Neither resolver invents or drops a key: for a keyframe list
    that is not empty, the keys of the state resolved at any frame are the
    keys of one of the keyframes, in the lazy mode and in the entry of the
    eager table. *)
Theorem resolved_keys_of_a_keyframe kfs (t : Z) :
  kfs ≠ [] →
  (∃ k, k ∈ kfs ∧ dom (props (interpolate kfs t)) = dom (props k))
  ∧ (∃ k, k ∈ kfs
          ∧ dom (props (precalcFrame (sortFrames kfs)
                          (propsToInterpolate (sortFrames kfs)) t))
            = dom (props k)).
Proof.
  intros Hne.
  destruct (sortFrames kfs) as [|k0 rest] eqn:Hs.
  { by apply sortFrames_nil_inv in Hs. }
  assert (∀ i, nth i (k0 :: rest) k0 ∈ kfs) as Hnth.
  { intros i. apply elem_of_sortFrames. rewrite Hs. apply nth_head_elem_of. }
  split.
  - unfold interpolate. rewrite Hs.
    destruct (scan (k0 :: rest) t) as [pi ni].
    repeat case_match; cbn [props withFrame];
      try (eexists; split; [apply Hnth|reflexivity]).
    exists (nth pi (k0 :: rest) k0). split; [apply Hnth|].
    apply dom_merge_mergeKey.
  - unfold precalcFrame.
    destruct (List.find _ (k0 :: rest)) as [exact|] eqn:Hfind.
    + exists exact. split; [|done].
      apply find_some in Hfind as [Hin _].
      apply elem_of_sortFrames. rewrite Hs. by apply list_elem_of_In.
    + destruct (scan (k0 :: rest) t) as [pi ni].
      repeat case_match; cbn [props withFrame];
        try (eexists; split; [apply Hnth|reflexivity]).
      exists (nth pi (k0 :: rest) k0). split; [apply Hnth|].
      apply dom_foldl_interpolateProp.
Qed.

Lemma sortFrames_sorted_id l : StronglySorted frameLe l → sortFrames l = l.
Proof.
  induction 1 as [|k l Hl IH Hk]; [done|].
  cbn [sortFrames foldr]. fold (sortFrames l). rewrite IH.
  destruct l as [|y l']; [done|].
  apply insertFrame_head. by apply Forall_cons in Hk as [? _].
Qed.

Lemma frame_inj_NoDup l k1 k2 :
  NoDup (frame <$> l) → k1 ∈ l → k2 ∈ l → frame k1 = frame k2 → k1 = k2.
Proof.
  induction l as [|y l IH]; intros Hnd H1 H2 Heq.
  - by apply not_elem_of_nil in H1.
  - rewrite fmap_cons in Hnd. apply NoDup_cons in Hnd as [Hy Hnd].
    apply elem_of_cons in H1 as [->|H1], H2 as [->|H2]; try done.
    + exfalso. apply Hy. rewrite Heq. apply list_elem_of_fmap. by exists k2.
    + exfalso. apply Hy. rewrite <- Heq. apply list_elem_of_fmap. by exists k1.
    + by apply IH.
Qed.

(** X4.  The order in which the caller lists the keyframes does not
    matter when no two of them share a frame: two lists with the same
    keyframes resolve every frame to the same state.  (With two keyframes
    on one frame the order decides which of them an exact query returns.) *)
Theorem interpolate_order_independent kfs kfs' (t : Z) :
  NoDup (frame <$> kfs) →
  kfs ≡ₚ kfs' →
  sortFrames kfs = sortFrames kfs' ∧ interpolate kfs t = interpolate kfs' t.
Proof.
  intros Hnd Hperm.
  assert (sortFrames kfs = sortFrames kfs') as Heq.
  { apply (StronglySorted_unique_strong frameLe).
    - intros k1 k2 H1 H2 H12 H21.
      apply (proj1 (elem_of_sortFrames _ _)) in H1.
      apply (proj1 (elem_of_sortFrames _ _)) in H2.
      rewrite <- Hperm in H2.
      apply (frame_inj_NoDup kfs); [done..|]. unfold frameLe in *. lia.
    - apply sortFrames_sorted.
    - apply sortFrames_sorted.
    - by rewrite !sortFrames_Permutation. }
  split; [done|]. unfold interpolate. by rewrite Heq.
Qed.

End ResolverProps.

Lemma interpolate_between_witness :
  props (interpolate titleFrames 4) !! "label" = Some (VStr "intro")
  ∧ props (interpolate titleFrames 4) !! "alpha" = Some (VNum (ZtoQc 1))
  ∧ props (interpolate titleFrames 4) !! "rotation" = None.
Proof.
  assert (∃ p n, sortFrames titleFrames = [] ++ p :: n :: []
                 ∧ (frame p ≤ 4 < frame n)%Z
                 ∧ props p !! "label" = Some (VStr "intro")
                 ∧ props p !! "alpha" = Some (VNum (ZtoQc 1))
                 ∧ props p !! "rotation" = None
                 ∧ props n !! "label" = Some (VStr "outro")
                 ∧ props n !! "alpha" = None) as (p & n & Hs & Ht & Hp).
  { eexists _, _. split; [vm_compute; reflexivity|].
    split; [simpl; lia|]. repeat split; vm_compute; reflexivity. }
  destruct Hp as (Hl & Ha & Hr & Hl' & Ha').
  pose proof (interpolate_between (N:=Qc) titleFrames [] [] p n 4) as Hkey.
  split; [|split].
  - rewrite (Hkey "label" Hs Ht), Hl. reflexivity.
  - rewrite (Hkey "alpha" Hs Ht), Ha, Ha'. reflexivity.
  - rewrite (Hkey "rotation" Hs Ht), Hr. reflexivity.
Defined.

Lemma resolved_keys_witness :
  ∃ k, k ∈ titleFrames ∧ dom (props (interpolate titleFrames 4)) = dom (props k).
Proof.
  assert (titleFrames ≠ []) as Hne by discriminate.
  exact (proj1 (resolved_keys_of_a_keyframe (N:=Qc) titleFrames 4 Hne)).
Defined.

Lemma interpolate_order_independent_witness :
  interpolate reversed_0_10 7 = interpolate sample_0_10 7.
Proof.
  assert (NoDup (frame <$> reversed_0_10)) as Hnd.
  { simpl. apply NoDup_cons. split; [|apply NoDup_singleton].
    rewrite list_elem_of_singleton. discriminate. }
  assert (reversed_0_10 ≡ₚ sample_0_10) as Hperm by apply Permutation_swap.
  exact (proj2 (interpolate_order_independent (N:=Qc) reversed_0_10
                  sample_0_10 7 Hnd Hperm)).
Defined.

(** ** The precomputation on its edges *)

Section DenseResolveProps.
Context {N : Type} `{JsNumber N}.
Implicit Types (k : Frame N) (l kfs : list (Frame N)) (g : Z → Frame N).

Lemma id_precalcElement d (e : MovieElement N) : id (precalcElement d e) = id e.
Proof. unfold precalcElement. by repeat case_match. Qed.

(** X7.  With a negative duration the loop over the frames does not run
    and the precomputation replaces the keyframes of every element that is
    not an audio element by an empty list; resolving such an element on the
    precomputed movie yields a state without properties. *)
Theorem precalculate_negative_duration (d : Z) (e : MovieElement N) (t : Z) :
  (d < 0)%Z →
  isAudio (type e) = false →
  frames (precalcElement d e) = []
  ∧ interpolate (frames (precalcElement d e)) t = mkFrame t ∅.
Proof.
  intros Hd Haudio.
  assert (frames (precalcElement d e) = []) as Hnil.
  { unfold precalcElement. rewrite Haudio.
    destruct (sortFrames (frames e)) as [|k0 rest] eqn:Hs.
    - by apply sortFrames_nil_inv in Hs.
    - cbn [frames]. unfold fullFrames. by rewrite seqZ_nil by lia. }
  by rewrite Hnil.
Qed.

End DenseResolveProps.

Lemma precalculate_negative_duration_witness :
  frames (precalcElement (-1) (sampleElement (N:=Qc))) = [].
Proof.
  assert (-1 < 0)%Z as Hd by lia.
  exact (proj1 (precalculate_negative_duration (N:=Qc) (-1) sampleElement 0
                  Hd eq_refl)).
Defined.

(** ** The renderer over runs of calls *)

Section RunProps.
Context {N : Type}.
Implicit Types (m : Movie N) (r : MovieRenderer) (el : MovieElement N)
  (emap : gmap string HTMLAudioElement).

Lemma renderAudio_not_playing_paused m f el item :
  paused item = true → renderAudio m false f el item = item.
Proof.
  intros Hp. unfold renderAudio. rewrite Hp. simpl.
  destruct f as [f|]; [|done]. by destruct (_ && _).
Qed.

Lemma foldl_renderElement_paused m f els emap :
  allPaused emap → foldl (renderElement m false f) emap els = emap.
Proof.
  intros Hall. induction els as [|el els IH]; [done|].
  cbn [foldl].
  assert (renderElement m false f emap el = emap) as ->; [|done].
  unfold renderElement. destruct (isAudio (type el)); [|done].
  destruct (emap !! id el) as [item|] eqn:Hitem; [|done].
  rewrite renderAudio_not_playing_paused by exact (Hall _ _ Hitem).
  by apply insert_id.
Qed.

(** X8.  While the movie is not playing and every audio item is paused, a
    render of any frame leaves every audio item as it is, paused and at
    its offset; so does a render right after [pause], and so does [seek],
    which moves the position and keeps the movie not playing.  (This is
    about the audio items: the visual branch writes the drawables whatever
    the playing state.) *)
Theorem renderFrame_while_paused m r (f : option Z) :
  isPlaying r = false → allPaused (elementMap r) →
  elementMap (renderFrame m r f) = elementMap r
  ∧ elementMap (renderFrame m (pause r) f) = elementMap (pause r)
  ∧ ∀ frame0, elementMap (seek m r frame0) = elementMap r
              ∧ currentFrame (seek m r frame0) = Some (ZtoQc frame0)
              ∧ isPlaying (seek m r frame0) = false.
Proof.
  intros Hplay Hall.
  assert (∀ r' f', isPlaying r' = false → allPaused (elementMap r') →
                   elementMap (renderFrame m r' f') = elementMap r') as Hnoop.
  { intros r' f' Hp Ha. unfold renderFrame. cbn [elementMap]. rewrite Hp.
    by rewrite foldl_renderElement_paused. }
  split; [by apply Hnoop|]. split.
  - apply Hnoop; [done|]. unfold pause. cbn [elementMap].
    intros key item. rewrite lookup_fmap.
    destruct (elementMap r !! key); [|done]. by intros [= <-].
  - intros frame0. unfold seek. split; [|by split].
    by rewrite Hnoop.
Qed.

Lemma allPaused_pause r : allPaused (elementMap (pause r)).
Proof.
  unfold pause. cbn [elementMap]. intros key item. rewrite lookup_fmap.
  destruct (elementMap r !! key); [|done]. by intros [= <-].
Qed.

Lemma allPaused_setup els emap :
  allPaused emap → allPaused (foldl (setupElement (N:=N)) emap els).
Proof.
  revert emap. induction els as [|el els IH]; intros emap Hall; [done|].
  cbn [foldl]. apply IH. unfold setupElement.
  destruct (isAudio (type el)).
  - by apply map_Forall_insert_2.
  - by apply map_Forall_delete.
Qed.

Lemma rendererInv_renderFrame m r f :
  rendererInv r → rendererInv (renderFrame m r f).
Proof.
  intros [Hreg Hall]. split; [done|]. cbn [renderFrame isPlaying elementMap].
  intros Hp. rewrite Hp. rewrite foldl_renderElement_paused; auto.
Qed.

Lemma rendererInv_pause r : rendererInv (pause r).
Proof. split; [done|]. intros _. apply allPaused_pause. Qed.

Lemma rendererInv_update m r dt : rendererInv r → rendererInv (update m r dt).
Proof.
  intros [Hreg Hall]. unfold update. apply rendererInv_renderFrame.
  cbn [setCurrentFrame currentFrame].
  destruct (advance m r dt) as [c|]; [|by split].
  destruct (Qcltb _ c); [|by split].
  destruct (loop m); [by split|]. apply rendererInv_pause.
Qed.

Lemma rendererInv_call m r c : rendererInv r → rendererInv (call m r c).
Proof.
  intros Hinv. destruct c as [| |f|dt]; cbn [call].
  - unfold play. destruct (isPlaying r) eqn:Hp; [done|]. by split.
  - apply rendererInv_pause.
  - unfold seek. apply rendererInv_renderFrame.
    destruct Hinv as [Hreg Hall]. by split.
  - unfold tick. destruct (onTicker r); [|done]. by apply rendererInv_update.
Qed.

(** X9.  After [init] and any sequence of [play], [pause], [seek] and
    ticks, [update] is registered with the ticker exactly when the movie
    is playing, and when the movie is not playing no audio item is
    playing. *)
Theorem run_invariant m (calls : list RendererCall) :
  isPlaying (run m calls) = onTicker (run m calls)
  ∧ (isPlaying (run m calls) = false → allPaused (elementMap (run m calls))).
Proof.
  change (rendererInv (run m calls)). unfold run.
  assert (rendererInv (setupElements m newRenderer)) as Hinit.
  { split; [done|]. intros _. cbn [setupElements elementMap newRenderer].
    apply allPaused_setup. apply map_Forall_empty. }
  revert Hinit. generalize (setupElements m newRenderer).
  induction calls as [|c calls IH]; intros r Hinv; [done|].
  cbn [foldl]. apply IH. by apply rendererInv_call.
Qed.

End RunProps.

Lemma renderFrame_while_paused_witness :
  elementMap
    (renderFrame audioMovie (pause (audioRenderer (mkAudio false (ZtoQc 7))))
       (Some 45%Z))
  = elementMap (pause (audioRenderer (mkAudio false (ZtoQc 7)))).
Proof.
  assert (allPaused
            (elementMap (pause (audioRenderer (mkAudio false (ZtoQc 7))))))
    as Hall by apply allPaused_pause.
  exact (proj1 (renderFrame_while_paused audioMovie
                  (pause (audioRenderer (mkAudio false (ZtoQc 7))))
                  (Some 45%Z) eq_refl Hall)).
Defined.

(** ** The position of the clock *)





Section ClockProps.
Context {N : Type}.
Implicit Types (m : Movie N) (r : MovieRenderer).


(** X11.  A tick that does not pass the duration only moves the position:
    when the advanced position is at most the duration (also when it is
    exactly the duration, and also when a negative delta takes it below
    zero), [update] stores it as it is and neither wraps, nor clamps, nor
    pauses. *)
Theorem update_within m r (dt c : Qc) :
  advance m r dt = Some c →
  (c <= ZtoQc (duration m))%Qc →
  currentFrame (update m r dt) = Some c
  ∧ isPlaying (update m r dt) = isPlaying r
  ∧ onTicker (update m r dt) = onTicker r.
Proof.
  intros Hadv Hle%Qcltb_ge. unfold update.
  cbn [setCurrentFrame currentFrame renderFrame].
  by rewrite Hadv, Hle.
Qed.

Lemma currentFrame_tick_NaN m r dt :
  currentFrame r = None → currentFrame (tick m r dt) = None.
Proof.
  intros Hnan. unfold tick. destruct (onTicker r); [|done].
  unfold update, advance. cbn [setCurrentFrame currentFrame renderFrame].
  by rewrite Hnan.
Qed.

(** X12.  A looping movie of duration zero loses its position for good:
    once a tick advances the position past zero the position is [NaN], and
    it is still [NaN] after any number of further ticks. *)
Theorem zero_duration_loop_stays_NaN m r (dt c : Qc) (dts : list Qc) :
  loop m = true → duration m = 0%Z →
  onTicker r = true →
  advance m r dt = Some c → (0 < c)%Qc →
  currentFrame (foldl (tick m) r (dt :: dts)) = None.
Proof.
  intros Hloop Hd Hon Hadv Hc. cbn [foldl].
  assert (currentFrame (tick m r dt) = None) as Hnan.
  { unfold tick. rewrite Hon.
    rewrite (update_past_loop m r dt c); [|done..|by rewrite Hd].
    by rewrite Hd. }
  revert Hnan. generalize (tick m r dt). clear.
  induction dts as [|dt' dts IH]; intros r Hnan; [done|].
  cbn [foldl]. apply IH. by apply currentFrame_tick_NaN.
Qed.

End ClockProps.


Lemma update_within_witness :
  currentFrame (update loopMovie (rendererAt 95) (ZtoQc 5)) = Some (ZtoQc 100)
  ∧ isPlaying (update loopMovie (rendererAt 95) (ZtoQc 5)) = true
  ∧ onTicker (update loopMovie (rendererAt 95) (ZtoQc 5)) = true.
Proof.
  assert (ZtoQc 100 <= ZtoQc (duration loopMovie))%Qc as Hle by (by vm_compute).
  exact (update_within loopMovie (rendererAt 95) (ZtoQc 5) (ZtoQc 100)
           eq_refl Hle).
Defined.

Lemma zero_duration_loop_witness :
  currentFrame (foldl (tick zeroMovie) (rendererAt 0)
                  [ZtoQc 1; ZtoQc 1; ZtoQc 1]) = None.
Proof.
  assert (0 < ZtoQc 1)%Qc as Hc by (by vm_compute).
  exact (zero_duration_loop_stays_NaN zeroMovie (rendererAt 0) (ZtoQc 1)
           (ZtoQc 1) [ZtoQc 1; ZtoQc 1] eq_refl eq_refl eq_refl eq_refl Hc).
Defined.

(** ** The audio branch in general *)

Lemma absQc_diag (x : Qc) : absQc (x - x) = 0%Qc.
Proof. replace (x - x)%Qc with 0%Qc by ring. reflexivity. Qed.

Lemma drift_diag (x : Qc) : Qcltb (Q2Qc (1 # 2)) (absQc (x - x)) = false.
Proof. by rewrite absQc_diag. Qed.

Section AudioProps.
Context {N : Type}.
Implicit Types (m : Movie N) (r : MovieRenderer) (el : MovieElement N)
  (emap : gmap string HTMLAudioElement) (item : HTMLAudioElement).

(** X13.  The window of an audio element in general, with [startFrame]
    defaulting to 0 and [endFrame] to the duration of the movie, so that
    without bounds the last frame of the movie is outside the window.
    Outside the window (also at a [NaN] frame) the media is left paused,
    rewound to zero when it had been playing and untouched otherwise,
    whether the movie is playing or not; inside the window a render while
    the movie is not playing leaves the media as it is. *)
Theorem audio_window_general m (playing : bool) (f : Z) el item :
  (¬ (default 0 (startFrame el) ≤ f < default (duration m) (endFrame el))%Z →
     renderAudio m playing (Some f) el item
     = if paused item then item else mkAudio true 0%Qc)
  ∧ renderAudio m playing None el item
    = (if paused item then item else mkAudio true 0%Qc)
  ∧ ((default 0 (startFrame el) ≤ f < default (duration m) (endFrame el))%Z →
     renderAudio m false (Some f) el item = item)
  ∧ (startFrame el = None → endFrame el = None →
     paused (renderAudio m playing (Some (duration m)) el item) = true).
Proof.
  assert (∀ f', ¬ (default 0 (startFrame el) ≤ f'
                   < default (duration m) (endFrame el))%Z →
            renderAudio m playing (Some f') el item
            = if paused item then item else mkAudio true 0%Qc) as Hout.
  { intros f' Hf. unfold renderAudio.
    replace ((default 0 (startFrame el) <=? f')%Z
             && (f' <? default (duration m) (endFrame el))%Z) with false.
    - by destruct (paused item).
    - symmetry. apply andb_false_iff. rewrite Z.leb_gt, Z.ltb_ge. lia. }
  split; [apply Hout|]. split; [|split].
  - unfold renderAudio. by destruct (paused item).
  - intros Hf. unfold renderAudio.
    replace ((default 0 (startFrame el) <=? f)%Z
             && (f <? default (duration m) (endFrame el))%Z) with true; [done|].
    symmetry. apply andb_true_iff. rewrite Z.leb_le, Z.ltb_lt. lia.
  - intros Hs He. rewrite Hout.
    + by destruct (paused item) eqn:Hp.
    + rewrite Hs, He. simpl. lia.
Qed.

(** Rendering the same frame twice gives one item what one render gives. *)
Lemma renderAudio_idemp m playing f el item :
  renderAudio m playing f el (renderAudio m playing f el item)
  = renderAudio m playing f el item.
Proof.
  assert ((if negb (paused (if negb (paused item)
                            then mkAudio true 0%Qc else item))
           then mkAudio true 0%Qc
           else if negb (paused item) then mkAudio true 0%Qc else item)
          = if negb (paused item) then mkAudio true 0%Qc else item) as Hout.
  { destruct (paused item) eqn:Hp; cbn [negb paused]; by rewrite ?Hp. }
  unfold renderAudio. destruct f as [f|]; [|exact Hout].
  destruct (_ && _); [|exact Hout].
  destruct playing, (paused item) eqn:Hp; cbn [andb negb paused currentTime];
    rewrite ?Hp; cbn [andb negb]; rewrite ?drift_diag; try done.
  destruct (Qcltb _ _) eqn:Hd; cbn [paused currentTime];
    rewrite ?Hp; cbn [andb negb]; by rewrite ?drift_diag, ?Hd.
Qed.

(** What the loop of [renderFrame] leaves under the id of an element whose
    id no other element has. *)
Lemma foldl_renderElement_at m playing f els emap el :
  NoDup (id <$> els) → el ∈ els →
  foldl (renderElement m playing f) emap els !! id el
  = if isAudio (type el)
    then renderAudio m playing f el <$> emap !! id el
    else emap !! id el.
Proof.
  revert emap. induction els as [|y els IH]; intros emap Hnd Hin.
  - by apply not_elem_of_nil in Hin.
  - rewrite fmap_cons in Hnd. apply NoDup_cons in Hnd as [Hy Hnd].
    cbn [foldl]. apply elem_of_cons in Hin as [->|Hin].
    + rewrite foldl_renderElement_other by done.
      unfold renderElement. destruct (isAudio (type y)); [|done].
      destruct (emap !! id y) as [item|] eqn:Hitem.
      * by rewrite lookup_insert_eq.
      * by rewrite Hitem.
    + rewrite IH by done.
      rewrite renderElement_lookup_ne; [done|].
      intros Heq. apply Hy. rewrite Heq.
      apply list_elem_of_fmap. by exists el.
Qed.

(** X15.  With element ids that are unique in the movie, rendering a frame
    a second time changes nothing: the second render finds every media
    where the first one put it. *)
Theorem renderFrame_idempotent m r (f : option Z) :
  NoDup (id <$> elements m) →
  renderFrame m (renderFrame m r f) f = renderFrame m r f.
Proof.
  intros Hnd. unfold renderFrame at 1 3.
  cbn [renderFrame isPlaying currentFrame onTicker elementMap]. f_equal.
  apply map_eq. intros key.
  destruct (decide (key ∈ id <$> elements m)) as [Hin|Hnin].
  - apply list_elem_of_fmap in Hin as (el & -> & Hel).
    rewrite !foldl_renderElement_at by done.
    destruct (isAudio (type el)); [|done].
    destruct (elementMap r !! id el) as [item|]; [|done].
    cbn [fmap option_fmap option_map]. by rewrite renderAudio_idemp.
  - by rewrite !foldl_renderElement_other.
Qed.

Lemma setupElement_lookup_ne emap el key :
  id el ≠ key → setupElement emap el !! key = emap !! key.
Proof.
  intros Hne. unfold setupElement. destruct (isAudio (type el)).
  - by rewrite lookup_insert_ne.
  - by rewrite lookup_delete_ne.
Qed.

Lemma foldl_setupElement_other els emap key :
  key ∉ id <$> els → foldl (setupElement (N:=N)) emap els !! key = emap !! key.
Proof.
  revert emap. induction els as [|y els IH]; intros emap Hnin; [done|].
  cbn [foldl]. rewrite fmap_cons, not_elem_of_cons in Hnin.
  destruct Hnin as [Hne Hnin].
  rewrite IH by done. by apply setupElement_lookup_ne.
Qed.

Lemma foldl_setupElement_audio els emap el :
  NoDup (id <$> els) → el ∈ els → isAudio (type el) = true →
  foldl setupElement emap els !! id el = Some (mkAudio true 0%Qc).
Proof.
  revert emap. induction els as [|y els IH]; intros emap Hnd Hin Haudio.
  - by apply not_elem_of_nil in Hin.
  - rewrite fmap_cons in Hnd. apply NoDup_cons in Hnd as [Hy Hnd].
    cbn [foldl]. apply elem_of_cons in Hin as [->|Hin].
    + rewrite foldl_setupElement_other by done.
      unfold setupElement. rewrite Haudio. by rewrite lookup_insert_eq.
    + by apply IH.
Qed.

(** X16.  From [init] to sound: with element ids that are unique in the
    movie and a frame rate that is not zero, [setupElements] registers a
    paused media at offset zero for every audio element, and after [play]
    the first render of a frame inside the window of the element starts
    that media at the offset [(frame - startFrame) / fps]. *)
Theorem first_render_starts_audio m el (f : Z) :
  NoDup (id <$> elements m) →
  el ∈ elements m →
  type el = audio →
  fps m ≠ 0%Qc →
  (default 0 (startFrame el) ≤ f < default (duration m) (endFrame el))%Z →
  elementMap (setupElements m newRenderer) !! id el = Some (mkAudio true 0%Qc)
  ∧ elementMap (renderFrame m (play (setupElements m newRenderer)) (Some f))
      !! id el
    = Some (mkAudio false (expectedTimeAt m f (default 0%Z (startFrame el)))).
Proof.
  intros Hnd Hin Htype _ Hf.
  assert (isAudio (type el) = true) as Haudio by (by rewrite Htype).
  assert (elementMap (setupElements m newRenderer) !! id el
          = Some (mkAudio true 0%Qc)) as Hsetup.
  { cbn [setupElements elementMap]. by apply foldl_setupElement_audio. }
  split; [done|].
  cbn [renderFrame play setupElements newRenderer isPlaying elementMap].
  rewrite foldl_renderElement_at by done. rewrite Haudio.
  cbn [setupElements elementMap newRenderer] in Hsetup. rewrite Hsetup.
  cbn [fmap option_fmap option_map]. f_equal. unfold renderAudio.
  replace ((default 0 (startFrame el) <=? f)%Z
           && (f <? default (duration m) (endFrame el))%Z) with true; [done|].
  symmetry. apply andb_true_iff. rewrite Z.leb_le, Z.ltb_lt. lia.
Qed.

End AudioProps.

Lemma renderFrame_idempotent_witness :
  renderFrame audioMovie
    (renderFrame audioMovie (audioRenderer (mkAudio true 0%Qc)) (Some 45%Z))
    (Some 45%Z)
  = renderFrame audioMovie (audioRenderer (mkAudio true 0%Qc)) (Some 45%Z).
Proof.
  assert (NoDup (id <$> elements audioMovie)) as Hnd
    by (simpl; apply NoDup_singleton).
  exact (renderFrame_idempotent audioMovie (audioRenderer (mkAudio true 0%Qc))
           (Some 45%Z) Hnd).
Defined.

Lemma first_render_starts_audio_witness :
  elementMap (renderFrame audioMovie (play (setupElements audioMovie newRenderer))
                (Some 45%Z)) !! "bgm"
  = Some (mkAudio false (expectedTimeAt audioMovie 45 30)).
Proof.
  assert (NoDup (id <$> elements audioMovie)) as Hnd
    by (simpl; apply NoDup_singleton).
  assert (audioElement ∈ elements audioMovie) as Hin by left.
  assert (default 0 (startFrame audioElement) ≤ 45
          < default (duration audioMovie) (endFrame audioElement))%Z as Hf
    by (simpl; lia).
  assert (fps audioMovie ≠ 0%Qc) as Hfps.
  { intros Heq. apply (f_equal this) in Heq. discriminate Heq. }
  exact (proj2 (first_render_starts_audio audioMovie audioElement 45
                  Hnd Hin eq_refl Hfps Hf)).
Defined.

(** ** Drawables *)

Lemma NoDup_stateKeys_paths : NoDup (stateKeys.*2).
Proof. refine (bool_decide_unpack (NoDup (stateKeys.*2)) _). by vm_compute. Qed.

Lemma NoDup_stateKeys_keys : NoDup (stateKeys.*1).
Proof. refine (bool_decide_unpack (NoDup (stateKeys.*1)) _). by vm_compute. Qed.

Section DrawableProps.
Context {N : Type}.
Implicit Types (state : Frame N) (obj : gmap string (value N))
  (emap : gmap string (gmap string (value N))) (e : MovieElement N).

Lemma foldl_applyKey_other state ks obj (path : string) :
  path ∉ ks.*2 → foldl (applyKey state) obj ks !! path = obj !! path.
Proof.
  revert obj. induction ks as [|[k0 p0] ks IH]; intros obj Hnin; [done|].
  cbn [foldl]. rewrite fmap_cons, not_elem_of_cons in Hnin.
  destruct Hnin as [Hne Hnin]. rewrite IH by done.
  unfold applyKey. cbn [fst snd] in *.
  destruct (props state !! k0); [|done]. by rewrite lookup_insert_ne.
Qed.

Lemma foldl_applyKey_at state ks obj (key path : string) :
  NoDup (ks.*2) → (key, path) ∈ ks →
  foldl (applyKey state) obj ks !! path
  = match props state !! key with
    | Some v => Some v
    | None => obj !! path
    end.
Proof.
  revert obj. induction ks as [|[k0 p0] ks IH]; intros obj Hnd Hin.
  - by apply not_elem_of_nil in Hin.
  - rewrite fmap_cons in Hnd. apply NoDup_cons in Hnd as [Hp0 Hnd].
    cbn [foldl fst snd] in *. apply elem_of_cons in Hin as [[= -> ->]|Hin].
    + rewrite foldl_applyKey_other by done. unfold applyKey. cbn [fst snd].
      destruct (props state !! k0); [|done]. by rewrite lookup_insert_eq.
    + rewrite IH by done. destruct (props state !! key); [done|].
      unfold applyKey. cbn [fst snd].
      destruct (props state !! k0); [|done].
      rewrite lookup_insert_ne; [done|]. intros ->. apply Hp0.
      apply list_elem_of_fmap. by exists (key, path).
Qed.

(** X17.  Applying a state to a drawable writes the six visual properties
    the state defines, each to its own path, and nothing else: a property
    the state lacks keeps the value the drawable had, a key of the state
    outside the six (a custom property) is ignored, and every other path
    of the drawable is untouched.  Applying the same state again changes
    nothing. *)
Theorem applyState_writes state obj :
  (∀ key path, (key, path) ∈ stateKeys →
     applyState state obj !! path
     = match props state !! key with
       | Some v => Some v
       | None => obj !! path
       end)
  ∧ (∀ path, path ∉ stateKeys.*2 → applyState state obj !! path = obj !! path)
  ∧ applyState state (applyState state obj) = applyState state obj.
Proof.
  assert (∀ obj' key path, (key, path) ∈ stateKeys →
            applyState state obj' !! path
            = match props state !! key with
              | Some v => Some v
              | None => obj' !! path
              end) as Hat.
  { intros obj' key path Hin. unfold applyState.
    by apply foldl_applyKey_at; [apply NoDup_stateKeys_paths|]. }
  assert (∀ obj' path, path ∉ stateKeys.*2 →
            applyState state obj' !! path = obj' !! path) as Hother.
  { intros obj' path Hnin. unfold applyState. by apply foldl_applyKey_other. }
  split; [apply Hat|]. split; [apply Hother|].
  apply map_eq. intros path.
  destruct (decide (path ∈ stateKeys.*2)) as [Hin|Hnin].
  - apply list_elem_of_fmap in Hin as ([key path'] & -> & Hin). cbn [snd].
    rewrite !(Hat _ key path') by done.
    by destruct (props state !! key).
  - by rewrite !Hother.
Qed.

Lemma applyState_no_write state obj :
  writesDrawable state = false → applyState state obj = obj.
Proof.
  intros Hw. unfold writesDrawable in Hw.
  apply map_eq. intros path.
  destruct (applyState_writes state obj) as (Hat & Hother & _).
  destruct (decide (path ∈ stateKeys.*2)) as [Hin|Hnin]; [|by apply Hother].
  apply list_elem_of_fmap in Hin as ([key path'] & -> & Hin). cbn [snd].
  rewrite (Hat key path') by done.
  destruct (props state !! key) as [v|] eqn:Hkey; [|done].
  exfalso. apply not_true_iff_false in Hw. apply Hw.
  apply existsb_exists. exists (key, path'). split.
  - by apply list_elem_of_In.
  - apply bool_decide_eq_true. cbn [fst]. by rewrite Hkey.
Qed.

End DrawableProps.

(** ** [updateFrame] over the drawables *)

Section UpdateFrameProps.
Context {N : Type} `{JsNumber N}.
Implicit Types (state : Frame N) (obj : gmap string (value N))
  (emap : gmap string (gmap string (value N))) (e : MovieElement N)
  (m : Movie N).

Lemma dom_insert_present emap (key : string) obj obj' :
  emap !! key = Some obj → dom (<[key := obj']> emap) = dom emap.
Proof.
  intros Hkey. rewrite dom_insert_L. apply set_eq. intros k.
  rewrite elem_of_union, elem_of_singleton. split; [|by right].
  intros [->|Hk]; [|done]. apply elem_of_dom. by eexists.
Qed.

Lemma updateElement_dom (f : Z) emap emap' e :
  updateElement f (Some emap) e = Some emap' → dom emap' = dom emap.
Proof.
  unfold updateElement. destruct (isAudio (type e)); [by intros [= <-]|].
  destruct (findState (frames e) f) as [state|]; [|by intros [= <-]].
  destruct (emap !! id e) as [obj|] eqn:Hobj.
  - intros [= <-]. by eapply dom_insert_present.
  - destruct (writesDrawable state); [done|]. by intros [= <-].
Qed.

Lemma foldl_updateElement_None (f : Z) (els : list (MovieElement N)) :
  foldl (updateElement f) None els = None.
Proof. by induction els. Qed.

(** X18.  Without the precomputation [updateFrame] moves a drawable on the
    keyframes only: at a frame on which no element that is not an audio
    element has a keyframe, it leaves every drawable as it is (and does
    not throw, whatever is registered). *)
Theorem updateFrame_holds_between_keyframes m emap (f : Z) :
  (∀ e, e ∈ elements m → isAudio (type e) = false →
        atFrame f (frames e) = []) →
  updateFrame m emap f = Some emap.
Proof.
  unfold updateFrame. induction (elements m) as [|e els IH]; intros Hnone;
    [done|].
  cbn [foldl].
  assert (updateElement f (Some emap) e = Some emap) as ->.
  { unfold updateElement. destruct (isAudio (type e)) eqn:Haudio; [done|].
    unfold findState. rewrite find_atFrame, Hnone; [done|left|done]. }
  apply IH. intros e' He'. apply Hnone. by right.
Qed.

(** X19.  [updateFrame] reads the drawable of an element without a check
    ([elementMap.get(id)!]): when an element that is not an audio element
    has, at the frame, a state that defines one of the six visual
    properties, and no drawable is registered under its id, the call
    throws. *)
Theorem updateFrame_throws_unregistered m emap (f : Z) e state :
  e ∈ elements m →
  isAudio (type e) = false →
  findState (frames e) f = Some state →
  writesDrawable state = true →
  emap !! id e = None →
  updateFrame m emap f = None.
Proof.
  intros Hin Haudio Hstate Hw Hnone. unfold updateFrame.
  assert (∀ acc, (∀ emap', acc = Some emap' → emap' !! id e = None) →
                 foldl (updateElement f) acc (elements m) = None) as Hgen.
  { induction (elements m) as [|y els IH]; intros acc Hacc.
    - by apply not_elem_of_nil in Hin.
    - cbn [foldl]. destruct acc as [emap'|];
        [|cbn [updateElement]; apply foldl_updateElement_None].
      specialize (Hacc emap' eq_refl).
      apply elem_of_cons in Hin as [<-|Hin].
      + unfold updateElement. rewrite Haudio, Hstate, Hacc, Hw.
        apply foldl_updateElement_None.
      + apply IH; [done|]. intros emap'' Hstep.
        apply updateElement_dom in Hstep.
        apply not_elem_of_dom. rewrite Hstep. by apply not_elem_of_dom. }
  apply Hgen. by intros emap' [= <-].
Qed.

Lemma updateElement_registered (f : Z) emap e :
  (isAudio (type e) = false → id e ∈ dom emap) →
  updateElement f (Some emap) e
  = Some (if isAudio (type e) then emap
          else match findState (frames e) f, emap !! id e with
               | Some state, Some obj => <[id e := applyState state obj]> emap
               | _, _ => emap
               end).
Proof.
  intros Hreg. unfold updateElement.
  destruct (isAudio (type e)); [done|].
  destruct (findState (frames e) f) as [state|]; [|done].
  destruct (emap !! id e) as [obj|] eqn:Hobj; [done|].
  specialize (Hreg eq_refl). apply elem_of_dom in Hreg as [? Hsome].
  congruence.
Qed.

Lemma lookup_updateFrame_other (f : Z) els emap emap' (key : string) :
  key ∉ id <$> els →
  foldl (updateElement f) (Some emap) els = Some emap' →
  emap' !! key = emap !! key.
Proof.
  revert emap. induction els as [|y els IH]; intros emap Hnin Hrun.
  - by injection Hrun as <-.
  - cbn [foldl] in Hrun. rewrite fmap_cons, not_elem_of_cons in Hnin.
    destruct Hnin as [Hne Hnin].
    destruct (updateElement f (Some emap) y) as [emap1|] eqn:Hstep.
    2:{ by rewrite foldl_updateElement_None in Hrun. }
    rewrite (IH emap1) by done.
    unfold updateElement in Hstep.
    destruct (isAudio (type y)); [by injection Hstep as <-|].
    destruct (findState (frames y) f); [|by injection Hstep as <-].
    destruct (emap !! id y).
    + injection Hstep as <-. by rewrite lookup_insert_ne.
    + destruct (writesDrawable _); [done|]. by injection Hstep as <-.
Qed.

(** X20.  With a drawable registered for every element that is not an
    audio element, [updateFrame] does not throw and keeps the set of
    registered ids; and when the ids of the elements are unique, the
    drawable of an element is the old one with the state found at the
    frame applied to it, or the old one itself when the element has no
    state at the frame. *)
Theorem updateFrame_registered m emap (f : Z) :
  (∀ e, e ∈ elements m → isAudio (type e) = false → id e ∈ dom emap) →
  ∃ emap', updateFrame m emap f = Some emap'
    ∧ dom emap' = dom emap
    ∧ (NoDup (id <$> elements m) →
       ∀ e, e ∈ elements m → isAudio (type e) = false →
         emap' !! id e
         = match findState (frames e) f with
           | Some state => applyState state <$> emap !! id e
           | None => emap !! id e
           end).
Proof.
  unfold updateFrame. revert emap.
  induction (elements m) as [|y els IH]; intros emap Hreg.
  - exists emap. split; [done|]. split; [done|].
    intros _ e He. by apply not_elem_of_nil in He.
  - cbn [foldl]. rewrite updateElement_registered by (apply Hreg; left).
    set (emap1 := if isAudio (type y) then emap else _).
    assert (dom emap1 = dom emap) as Hdom1.
    { unfold emap1. destruct (isAudio (type y)); [done|].
      destruct (findState (frames y) f); [|done].
      destruct (emap !! id y) eqn:Hy; [|done]. by eapply dom_insert_present. }
    destruct (IH emap1) as (emap' & Hrun & Hdom & Hlook).
    { intros e He Ha. rewrite Hdom1. apply Hreg; [by right|done]. }
    exists emap'. split; [done|]. split; [congruence|].
    intros Hnd e He Haudio. rewrite fmap_cons in Hnd.
    apply NoDup_cons in Hnd as [Hy Hnd].
    apply elem_of_cons in He as [->|He].
    + rewrite (lookup_updateFrame_other f els emap1 emap' (id y)) by done.
      unfold emap1. rewrite Haudio.
      destruct (findState (frames y) f) as [state|]; [|done].
      destruct (emap !! id y) as [obj|] eqn:Hobj; [|by rewrite Hobj].
      by rewrite lookup_insert_eq.
    + rewrite (Hlook Hnd e He Haudio).
      assert (id y ≠ id e) as Hne.
      { intros Heq. apply Hy. rewrite Heq.
        apply list_elem_of_fmap. by exists e. }
      assert (emap1 !! id e = emap !! id e) as ->; [|done].
      unfold emap1. destruct (isAudio (type y)); [done|].
      destruct (findState (frames y) f); [|done].
      destruct (emap !! id y); [|done]. by rewrite lookup_insert_ne.
Qed.

End UpdateFrameProps.

Lemma updateFrame_holds_witness :
  updateFrame titleMovie titleDrawables 4 = Some titleDrawables.
Proof.
  apply (updateFrame_holds_between_keyframes titleMovie titleDrawables 4).
  intros e He _. simpl in He.
  apply elem_of_cons in He as [->|He]; [reflexivity|].
  apply elem_of_cons in He as [->|He]; [reflexivity|].
  by apply not_elem_of_nil in He.
Defined.

Lemma updateFrame_throws_witness :
  updateFrame titleMovie ∅ 10 = None.
Proof.
  assert (titleElement ∈ elements titleMovie) as Hin by left.
  assert (findState (frames titleElement) 10
          = Some (mkFrame 10 {[ "x" := VNum (ZtoQc 100);
                                "label" := VStr "outro";
                                "rotation" := VNum (ZtoQc 3) ]})) as Hstate
    by (vm_compute; reflexivity).
  assert (writesDrawable
            (mkFrame 10 {[ "x" := VNum (ZtoQc 100); "label" := VStr "outro";
                           "rotation" := VNum (ZtoQc 3) ]}) = true) as Hw
    by (vm_compute; reflexivity).
  exact (updateFrame_throws_unregistered titleMovie ∅ 10 titleElement _
           Hin eq_refl Hstate Hw eq_refl).
Defined.

Lemma updateFrame_registered_witness :
  ∃ emap', updateFrame titleMovie titleDrawables 10 = Some emap'
           ∧ dom emap' = dom titleDrawables.
Proof.
  assert (∀ e, e ∈ elements titleMovie → isAudio (type e) = false →
               id e ∈ dom titleDrawables) as Hreg.
  { intros e He Ha. simpl in He.
    apply elem_of_cons in He as [->|He].
    - apply elem_of_dom. by eexists.
    - apply elem_of_cons in He as [->|He]; [discriminate Ha|].
      by apply not_elem_of_nil in He. }
  destruct (updateFrame_registered titleMovie titleDrawables 10 Hreg)
    as (emap' & Hrun & Hdom & _).
  exists emap'. split; [exact Hrun | exact Hdom].
Defined.

(** ** The two renderers on the drawables *)

Section DrawableModes.
Context {N : Type} `{JsNumber N}.
Implicit Types (emap : gmap string (gmap string (value N)))
  (e : MovieElement N) (m : Movie N).

Lemma writesDrawable_no_props (f : Z) :
  writesDrawable (mkFrame (N:=N) f ∅) = false.
Proof.
  unfold writesDrawable. apply not_true_iff_false.
  intros ([key path] & _ & Hsome)%existsb_exists.
  apply bool_decide_eq_true in Hsome. cbn [props fst] in Hsome.
  rewrite lookup_empty in Hsome. by destruct Hsome.
Qed.

Lemma type_precalcElement d e : type (precalcElement d e) = type e.
Proof. unfold precalcElement. by repeat case_match. Qed.

(** One element, in the two renderers. *)
Lemma updateElement_renderVisualElement m emap e (f : Z) :
  NoDup (id <$> elements m) →
  e ∈ elements m →
  (0 ≤ f ≤ duration m)%Z →
  (∀ a b, a ∈ frames e → b ∈ frames e →
          frame a = f → frame b = f → props a = props b) →
  exactAtFrame f (frames e) →
  (isAudio (type e) = false → id e ∈ dom emap) →
  (isAudio (type e) = true → id e ∉ dom emap) →
  updateElement f (Some emap) (precalcElement (duration m) e)
  = Some (renderVisualElement m f emap e).
Proof.
  intros Hnd Hin Hf Hagree Hexact Hreg Haud.
  unfold renderVisualElement.
  rewrite (getElementState_unique_id m e f) by done.
  unfold updateElement. rewrite type_precalcElement, id_precalcElement.
  destruct (isAudio (type e)) eqn:Haudio.
  - specialize (Haud eq_refl). apply not_elem_of_dom in Haud.
    by rewrite Haud.
  - specialize (Hreg eq_refl). apply elem_of_dom in Hreg as [obj Hobj].
    rewrite Hobj. unfold precalcElement. rewrite Haudio.
    destruct (sortFrames (frames e)) as [|k0 rest] eqn:Hs.
    + apply sortFrames_nil_inv in Hs. rewrite Hs.
      cbn [findState List.find]. unfold interpolate. cbn [sortFrames foldr].
      rewrite applyState_no_write by apply writesDrawable_no_props.
      by rewrite insert_id.
    + cbn [frames]. rewrite findState_fullFrames by done.
      by rewrite <- Hs, precalcFrame_interpolate.
Qed.

Lemma dom_renderVisualElement m emap e (f : Z) :
  dom (renderVisualElement m f emap e) = dom emap.
Proof.
  unfold renderVisualElement.
  destruct (getElementState m (id e) f); [|done].
  destruct (emap !! id e) eqn:Hobj; [|done]. by eapply dom_insert_present.
Qed.

(** X21.  Mode equivalence on the drawables.  For a movie whose element
    ids are unique, whose keyframes on the rendered frame agree within
    each element and give back their numbers when interpolated from
    ([v1 + (v2 - v1) * ratio = v1] at the ratio of the rendered frame), with
    a drawable registered for every element that is not an audio element
    and none for an audio element, and a frame in [[0, duration]]:
    [updateFrame] on the precomputed movie does not throw and leaves the
    drawables exactly as the lazy [renderFrame] leaves them on the original
    movie.  This holds in every arithmetic, binary64 included. *)
Theorem drawables_mode_equivalence m emap (f : Z) :
  NoDup (id <$> elements m) →
  (0 ≤ f ≤ duration m)%Z →
  (∀ e a b, e ∈ elements m → a ∈ frames e → b ∈ frames e →
            frame a = f → frame b = f → props a = props b) →
  (∀ e, e ∈ elements m → exactAtFrame f (frames e)) →
  (∀ e, e ∈ elements m → isAudio (type e) = false → id e ∈ dom emap) →
  (∀ e, e ∈ elements m → isAudio (type e) = true → id e ∉ dom emap) →
  updateFrame (_precalculateFrames m) emap f = Some (renderVisual m emap f).
Proof.
  intros Hnd Hf Hagree Hexact Hreg Haud. unfold updateFrame, renderVisual.
  cbn [_precalculateFrames elements].
  assert (∀ els emap',
            (∀ e, e ∈ els → e ∈ elements m) → dom emap' = dom emap →
            foldl (updateElement f) (Some emap')
              (precalcElement (duration m) <$> els)
            = Some (foldl (renderVisualElement m f) emap' els)) as Hgen.
  { induction els as [|e els IH]; intros emap' Hsub Hdom; [done|].
    cbn [fmap list_fmap foldl].
    rewrite (updateElement_renderVisualElement m emap' e f); try done.
    - apply IH.
      + intros e' He'. apply Hsub. by right.
      + by rewrite dom_renderVisualElement.
    - apply Hsub. left.
    - intros a b. apply Hagree, Hsub. left.
    - apply Hexact, Hsub. left.
    - rewrite Hdom. apply Hreg, Hsub. left.
    - rewrite Hdom. apply Haud, Hsub. left. }
  by apply Hgen.
Qed.

End DrawableModes.

Lemma drawables_mode_equivalence_witness :
  updateFrame (_precalculateFrames floatMovie) floatDrawables 0
  = Some (renderVisual floatMovie floatDrawables 0).
Proof.
  assert (NoDup (id <$> elements floatMovie)) as Hnd
    by (simpl; apply NoDup_singleton).
  assert (0 ≤ 0 ≤ duration floatMovie)%Z as Hf by (simpl; lia).
  assert (∀ e, e ∈ elements floatMovie → e = sampleElement) as Honly.
  { intros e He. simpl in He.
    apply elem_of_cons in He as [->|He]; [done|].
    by apply not_elem_of_nil in He. }
  assert (∀ e a b, e ∈ elements floatMovie → a ∈ frames e → b ∈ frames e →
                   frame a = 0%Z → frame b = 0%Z → props a = props b)
    as Hagree.
  { intros e a b He Ha Hb Hfa Hfb. rewrite (Honly e He) in Ha, Hb.
    simpl in Ha, Hb. apply elem_of_cons in Ha as [->|Ha].
    - apply elem_of_cons in Hb as [->|Hb]; [reflexivity|].
      apply elem_of_cons in Hb as [->|Hb]; [discriminate Hfb|].
      by apply not_elem_of_nil in Hb.
    - apply elem_of_cons in Ha as [->|Ha]; [discriminate Hfa|].
      by apply not_elem_of_nil in Ha. }
  assert (∀ e, e ∈ elements floatMovie → exactAtFrame 0 (frames e))
    as Hexact.
  { intros e He p n Hp Hn Hfp Hlt. rewrite (Honly e He) in Hp, Hn.
    simpl in Hp, Hn. apply elem_of_cons in Hp as [->|Hp].
    - by apply sample_exact_from_0.
    - apply elem_of_cons in Hp as [->|Hp]; [discriminate Hfp|].
      by apply not_elem_of_nil in Hp. }
  assert (∀ e, e ∈ elements floatMovie → isAudio (type e) = false →
               id e ∈ dom floatDrawables) as Hreg.
  { intros e He _. rewrite (Honly e He). apply elem_of_dom. by eexists. }
  assert (∀ e, e ∈ elements floatMovie → isAudio (type e) = true →
               id e ∉ dom floatDrawables) as Haud.
  { intros e He Ha. rewrite (Honly e He) in Ha. discriminate Ha. }
  exact (drawables_mode_equivalence floatMovie floatDrawables 0
           Hnd Hf Hagree Hexact Hreg Haud).
Defined.
